(** * GitHub PR Simplifier: the timeline reconstruction of [content.js]

    A shallow embedding of [src/github-pr-simplifier/content.js]: the two
    passes of [createSimplifiedView] over the timeline items, the sort of
    the comments, the tab rendering, [switchTab], [toggleView] and
    [formatTimeAgo], followed by the properties of the reconstruction.

    Conventions.
    - A JavaScript string is the list of its UTF-16 code units.
    - A [Date] is its time value in milliseconds, or [None] for the NaN time
      value of an Invalid Date.  A Number that can be NaN is an [option Z].
    - What the script reads from a DOM node through [querySelector] is a
      field of the record that stands for the node. *)

From Stdlib Require Import ZArith List Ascii String DecimalString Permutation.
From stdpp Require Import base gmap sets list sorting.

Local Open Scope Z_scope.

(** ** JavaScript strings *)

Module JS.

Definition jsstring := list N.

(** An ASCII literal of the script. *)
Definition lit (s : String.string) : jsstring :=
  List.map N_of_ascii (list_ascii_of_string s).

(** White space and line terminators removed by [String.prototype.trim]. *)
Definition isWhiteSpace (c : N) : bool :=
  ((9 <=? c) && (c <=? 13) || (c =? 32) || (c =? 160) || (c =? 5760)
   || (8192 <=? c) && (c <=? 8202) || (c =? 8232) || (c =? 8233)
   || (c =? 8239) || (c =? 8287) || (c =? 12288) || (c =? 65279))%N.

Fixpoint trimStart (s : jsstring) : jsstring :=
  match s with
  | c :: s' => if isWhiteSpace c then trimStart s' else s
  | [] => []
  end.

Definition trim (s : jsstring) : jsstring :=
  rev (trimStart (rev (trimStart s))).

Fixpoint startsWith (s p : jsstring) : bool :=
  match p, s with
  | [], _ => true
  | _ :: _, [] => false
  | a :: p', b :: s' => (a =? b)%N && startsWith s' p'
  end.

Fixpoint includes (s p : jsstring) : bool :=
  startsWith s p ||
  match s with
  | [] => false
  | _ :: s' => includes s' p
  end.

Definition endsWith (s p : jsstring) : bool :=
  startsWith (rev s) (rev p).

(** [s.substring(0, n)]. *)
Definition substring0 (n : nat) (s : jsstring) : jsstring := take n s.

(** [a || b] on strings: the empty string is falsy. *)
Definition orStr (a b : jsstring) : jsstring :=
  match a with [] => b | _ => a end.

(** An integer Number interpolated in a template literal. *)
Definition numToString (n : Z) : jsstring :=
  lit (NilZero.string_of_int (Z.to_int n)).

(** A possibly undefined string interpolated in a template literal. *)
Definition interp (o : option jsstring) : jsstring :=
  match o with
  | Some s => s
  | None => lit "undefined"
  end.

End JS.

Import JS.

(** The robot emoji U+1F916 is a surrogate pair. *)
Definition robot : jsstring := [55358%N; 56598%N].

(** ** Dates *)

(** [None] is the NaN time value. *)
Definition Date := option Z.

(** [a - b] on Numbers. *)
Definition numSub (a b : option Z) : option Z :=
  match a, b with
  | Some x, Some y => Some (x - y)
  | _, _ => None
  end.

(** [Math.floor(a / k)] for a positive integer constant [k]. *)
Definition floorDiv (a : option Z) (k : Z) : option Z :=
  match a with
  | Some x => Some (x / k)
  | None => None
  end.

(** [a < k]: every comparison with NaN is false. *)
Definition numLt (a : option Z) (k : Z) : bool :=
  match a with
  | Some x => x <? k
  | None => false
  end.

(** ** The calendar of [toLocaleDateString] and of the date parser *)

Module Calendar.

Definition msPerDay : Z := 86400000.

(** Year, month (1..12) and day of month of a day number counted from
    1970-01-01, in the proleptic Gregorian calendar of ECMAScript. *)
Definition civilFromDays (days : Z) : Z * Z * Z :=
  let z := days + 719468 in
  let era := z / 146097 in
  let doe := z mod 146097 in
  let yoe := (doe - doe / 1460 + doe / 36524 - doe / 146096) / 365 in
  let doy := doe - (365 * yoe + yoe / 4 - yoe / 100) in
  let mp := (5 * doy + 2) / 153 in
  let d := doy - (153 * mp + 2) / 5 + 1 in
  let m := if mp <? 10 then mp + 3 else mp - 9 in
  let y := yoe + era * 400 + (if m <=? 2 then 1 else 0) in
  (y, m, d).

Definition daysFromCivil (y m d : Z) : Z :=
  let y' := if m <=? 2 then y - 1 else y in
  let era := y' / 400 in
  let yoe := y' mod 400 in
  let doy := (153 * (if 2 <? m then m - 3 else m + 9) + 2) / 5 + d - 1 in
  let doe := yoe * 365 + yoe / 4 - yoe / 100 + doy in
  era * 146097 + doe - 719468.

Definition isLeap (y : Z) : bool :=
  (y mod 4 =? 0) && (negb (y mod 100 =? 0) || (y mod 400 =? 0)).

Definition daysInMonth (y m : Z) : Z :=
  match m with
  | 2 => if isLeap y then 29 else 28
  | 4 | 6 | 9 | 11 => 30
  | _ => 31
  end.

Definition monthShort (m : Z) : jsstring :=
  lit (match m with
       | 1 => "Jan" | 2 => "Feb" | 3 => "Mar" | 4 => "Apr"
       | 5 => "May" | 6 => "Jun" | 7 => "Jul" | 8 => "Aug"
       | 9 => "Sep" | 10 => "Oct" | 11 => "Nov" | _ => "Dec"
       end)%string.

End Calendar.

(** [date.toLocaleDateString('en-US', { month: 'short', day: 'numeric' })]
    where [tza t] is the offset of local time from UTC at [t], in
    milliseconds. *)
Definition toLocaleDateString (tza : Z -> Z) (date : Date) : jsstring :=
  match date with
  | None => lit "Invalid Date"
  | Some t =>
      let '(_, m, d) := Calendar.civilFromDays ((t + tza t) / Calendar.msPerDay) in
      Calendar.monthShort m ++ lit " " ++ numToString d
  end.

(** [`${n}`] for a Number that may be NaN. *)
Definition numInterp (n : option Z) : jsstring :=
  match n with
  | Some k => numToString k
  | None => lit "NaN"
  end.

(** [formatTimeAgo(date)], with [now] the value of [new Date()] read by the
    call.  The argument is [None] when the caller passes no object. *)
Definition formatTimeAgo (tza : Z -> Z) (now : Z) (date : option Date) : jsstring :=
  match date with
  | None => []
  | Some (Some 0) => []
  | Some d =>
      let diffMs := numSub (Some now) d in
      let diffMins := floorDiv diffMs 60000 in
      let diffHours := floorDiv diffMs 3600000 in
      let diffDays := floorDiv diffMs 86400000 in
      if numLt diffMins 1 then lit "just now"
      else if numLt diffMins 60 then numInterp diffMins ++ lit "m ago"
      else if numLt diffHours 24 then numInterp diffHours ++ lit "h ago"
      else if numLt diffDays 7 then numInterp diffDays ++ lit "d ago"
      else toLocaleDateString tza d
  end.

(** ** The page *)

(** A [relative-time] or [time-ago] element. *)
Record TimeElement := {
  datetimeAttr : option jsstring;   (* getAttribute('datetime'), null when absent *)
  timeTextContent : jsstring
}.

(** A [.js-timeline-item] node, as seen through the selectors of the script.
    An [option] field is [None] when the selector matches nothing, otherwise
    it holds the [textContent] (or [innerHTML]) of the first match. *)
Record TimelineItem := {
  hasCommitBadge : bool;            (* .TimelineItem-badge .octicon-git-commit, .octicon-repo-push, .octicon-git-branch *)
  hasCommitsListItemClass : bool;   (* classList.contains('js-commits-list-item') *)
  hasCommitsListItemChild : bool;   (* .commits-list-item *)
  authorMarker : option jsstring;   (* .author *)
  userLink : option jsstring;       (* a[data-hovercard-type="user"] *)
  headerAuthor : option jsstring;   (* .timeline-comment-header .author *)
  userRef : option jsstring;        (* [data-hovercard-type="user"] *)
  timeElement : option TimeElement; (* relative-time, time-ago *)
  bodyElement : option jsstring;    (* .comment-body, .markdown-body *)
  commentBodyHTML : option jsstring;(* innerHTML of .comment-body *)
  hasReviewComment : bool           (* .review-comment *)
}.

(** The node made by [item.cloneNode(true)] in iteration [nodeId] of the
    first pass: a new object, named by the iteration that made it. *)
Record Node := { nodeId : nat; content : TimelineItem }.

Definition cloneNode (item : TimelineItem) (index : nat) : Node :=
  {| nodeId := index; content := item |}.

Record CommentItem := {
  element : Node;
  author : jsstring;
  timestamp : jsstring;
  date : Date;
  index : nat;
  isBot : bool;
  isReview : bool;
  followingCommits : list Node
}.

Inductive OrderedItem :=
| CommitItem (el : Node) (idx : nat)
| Comment (c : CommentItem).

Definition itemIndex (o : OrderedItem) : nat :=
  match o with
  | CommitItem _ i => i
  | Comment c => index c
  end.

(** ** First pass of [createSimplifiedView] *)

Definition isCommit (item : TimelineItem) : bool :=
  hasCommitBadge item || hasCommitsListItemClass item || hasCommitsListItemChild item.

(** [a || b] on element lookups: a found element is truthy. *)
Definition orEl {A} (a b : option A) : option A :=
  match a with Some _ => a | None => b end.

Definition authorEl (item : TimelineItem) : option jsstring :=
  orEl (authorMarker item)
    (orEl (userLink item) (orEl (headerAuthor item) (userRef item))).

(** [authorEl?.textContent?.trim()]; [None] is [undefined]. *)
Definition authorOf (item : TimelineItem) : option jsstring :=
  trim <$> authorEl item.

(** [timestamp?.getAttribute('datetime') || timestamp?.textContent || ''] *)
Definition timeTextOf (item : TimelineItem) : jsstring :=
  match timeElement item with
  | None => []
  | Some te =>
      orStr (default [] (datetimeAttr te)) (orStr (timeTextContent te) [])
  end.

(** [commentBody && commentBody.textContent?.trim().length > 0] *)
Definition hasTextContent (item : TimelineItem) : bool :=
  match bodyElement item with
  | None => false
  | Some b => (0 <? length (trim b))%nat
  end.

(** [commentBody.textContent?.trim() || ''] *)
Definition bodyTextOf (item : TimelineItem) : jsstring :=
  match bodyElement item with
  | None => []
  | Some b => orStr (trim b) []
  end.

(** [`${author}-${timeText}-${commentBody.textContent.trim().substring(0, 100)}`] *)
Definition contentKey (item : TimelineItem) : jsstring :=
  interp (authorOf item) ++ lit "-" ++ timeTextOf item ++ lit "-"
    ++ substring0 100 (trim (default [] (bodyElement item))).

(** [author?.includes('[bot]') || author?.includes('bot')], as a truth value. *)
Definition isBotComment (item : TimelineItem) : bool :=
  match authorOf item with
  | None => false
  | Some a => includes a (lit "[bot]") || includes a (lit "bot")
  end.

Definition isFromAgenthelper (item : TimelineItem) : bool :=
  endsWith (bodyTextOf item) (lit "agenthelper")
  || includes (bodyTextOf item) (robot ++ lit " agenthelper")
  || match commentBodyHTML item with
     | None => false
     | Some html => includes html (lit "agenthelper")
     end.

(** [isFromAgenthelper ? 'agenthelper' : (author || 'Unknown')] *)
Definition displayAuthor (item : TimelineItem) : jsstring :=
  if isFromAgenthelper item then lit "agenthelper"
  else orStr (default [] (authorOf item)) (lit "Unknown").

Section Pipeline.

(** [new Date(s)] for a string [s]: the time value the host's date parser
    gives, [None] when the string is not recognised. *)
Variable parseDate : jsstring -> Date.

(** Offset of local time from UTC, and the clock read by the [n]-th call of
    [formatTimeAgo]. *)
Variable tza : Z -> Z.
Variable clock : nat -> Z.

(** [timestamp ? new Date(timeText) : new Date(0)] *)
Definition dateOf (item : TimelineItem) : Date :=
  match timeElement item with
  | Some _ => parseDate (timeTextOf item)
  | None => Some 0
  end.

Definition mkComment (item : TimelineItem) (i : nat) : CommentItem :=
  {| element := cloneNode item i;
     author := displayAuthor item;
     timestamp := timeTextOf item;
     date := dateOf item;
     index := i;
     isBot := isBotComment item || isFromAgenthelper item;
     (* item.classList.contains('js-timeline-item') holds for every node
        that querySelectorAll('.js-timeline-item') returns *)
     isReview := hasReviewComment item;
     followingCommits := [] |}.

(** State of the first pass: [seenCommentBodies] and [orderedItems]. *)
Definition Pass1 : Type := gset jsstring * list OrderedItem.

(** Body of the first [forEach]. *)
Definition collect (item : TimelineItem) (i : nat) (st : Pass1) : Pass1 :=
  if isCommit item then
    (st.1, st.2 ++ [CommitItem (cloneNode item i) i])
  else if hasTextContent item then
    if decide (contentKey item ∈ st.1) then st
    else ({[contentKey item]} ∪ st.1, st.2 ++ [Comment (mkComment item i)])
  else st.

(** [list.forEach((x, index) => ...)], started at index [i]. *)
Fixpoint forEachFrom {A St : Type} (f : A -> nat -> St -> St)
    (l : list A) (i : nat) (s : St) : St :=
  match l with
  | [] => s
  | x :: l' => forEachFrom f l' (S i) (f x i s)
  end.

Definition firstPass (items : list TimelineItem) : Pass1 :=
  forEachFrom collect items 0%nat (∅, []).

Definition orderedItems (items : list TimelineItem) : list OrderedItem :=
  (firstPass items).2.

(** ** Second pass: commits join the preceding comment *)

Definition pushCommit (el : Node) (c : CommentItem) : CommentItem :=
  {| element := element c; author := author c; timestamp := timestamp c;
     date := date c; index := index c; isBot := isBot c;
     isReview := isReview c;
     followingCommits := followingCommits c ++ [el] |}.

(** [comments] and [lastComment].  [lastComment] aliases an object of
    [comments]; the reference is the position of that object. *)
Definition Pass2 : Type := list CommentItem * option nat.

Definition group (item : OrderedItem) (st : Pass2) : Pass2 :=
  match item with
  | Comment c => (st.1 ++ [c], Some (length st.1))
  | CommitItem el _ =>
      match st.2 with
      | Some r => (alter (pushCommit el) r st.1, st.2)
      | None => st
      end
  end.

Definition secondPass (ordered : list OrderedItem) : Pass2 :=
  fold_left (fun st item => group item st) ordered ([], None).

(** ** [comments.sort((a, b) => b.date - a.date)] *)

(** The comparator; [None] is NaN. *)
Definition compareFn (a b : CommentItem) : option Z := numSub (date b) (date a).

(** [SortCompare(a, b) > 0]: a NaN result is read as [+0]. *)
Definition sortsAfter (a b : CommentItem) : bool :=
  match compareFn a b with
  | Some v => 0 <? v
  | None => false
  end.

(** [Array.prototype.sort] is a stable sort; with a consistent comparator
    (every date valid) its result is the one of this insertion sort.  When
    the comparator is not consistent (a NaN among the dates) ECMAScript
    leaves the order to the engine and the engine's order can differ from
    this definition; there the definition follows what insertion of each
    element from the right gives, which is what the engine does when every
    comparison it makes gives NaN, as on the pages [scenarioD] and
    [mixedDates] below.  What is stated of the order of the Turn list
    either assumes valid dates or is an evaluation on those two pages. *)
Fixpoint insertSorted (x : CommentItem) (l : list CommentItem) : list CommentItem :=
  match l with
  | [] => [x]
  | y :: l' => if sortsAfter x y then y :: insertSorted x l' else x :: l
  end.

Definition sortComments (l : list CommentItem) : list CommentItem :=
  foldr insertSorted [] l.

(** The comments after grouping and sorting: the Turn list. *)
Definition turns (items : list TimelineItem) : list CommentItem :=
  sortComments (secondPass (orderedItems items)).1.

End Pipeline.

(** ** The tab strip and the panels *)

Record TabBtn := {
  btnActive : bool;        (* class 'active' *)
  btnTabIndex : nat;       (* dataset.tabIndex *)
  authorIsBot : bool;      (* class 'is-bot' of the author span *)
  authorLabel : jsstring;  (* text of the author span *)
  timeLabel : jsstring     (* text of the time span *)
}.

Record CommitsSection := {
  commitsHeader : jsstring;
  commitNodes : list Node
}.

Record TabPanel := {
  panelActive : bool;
  panelTabIndex : nat;
  panelComment : Node;
  panelCommits : option CommitsSection
}.

(** A child of [.pr-simplifier-tab-content]. *)
Inductive ContentChild :=
| Panel (p : TabPanel)
| NoComments (text : jsstring).

Section Presenter.

Variable tza : Z -> Z.
Variable clock : nat -> Z.

Definition mkTabBtn (comment : CommentItem) (idx : nat) : TabBtn :=
  {| btnActive := (idx =? 0)%nat;
     btnTabIndex := idx;
     authorIsBot := isBot comment;
     authorLabel := author comment;
     timeLabel := formatTimeAgo tza (clock idx) (Some (date comment)) |}.

(** [`${n} commit${n > 1 ? 's' : ''} after this comment`] *)
Definition commitsHeaderText (n : nat) : jsstring :=
  numToString (Z.of_nat n) ++ lit " commit"
    ++ (if (1 <? n)%nat then lit "s" else []) ++ lit " after this comment".

Definition mkTabPanel (comment : CommentItem) (idx : nat) : TabPanel :=
  {| panelActive := (idx =? 0)%nat;
     panelTabIndex := idx;
     panelComment := element comment;
     panelCommits :=
       if (0 <? length (followingCommits comment))%nat then
         Some {| commitsHeader := commitsHeaderText (length (followingCommits comment));
                 commitNodes := followingCommits comment |}
       else None |}.

(** Children of [tabNav] and of [tabContent]. *)
Definition TabsDom : Type := list TabBtn * list ContentChild.

(** Body of [comments.forEach((comment, idx) => ...)]. *)
Definition buildTab (comment : CommentItem) (idx : nat) (dom : TabsDom) : TabsDom :=
  (dom.1 ++ [mkTabBtn comment idx], dom.2 ++ [Panel (mkTabPanel comment idx)]).

Definition renderTabs (comments : list CommentItem) : TabsDom :=
  let dom := forEachFrom buildTab comments 0%nat ([], []) in
  if (length comments =? 0)%nat then
    (dom.1, dom.2 ++ [NoComments (lit "No comments yet")])
  else dom.

End Presenter.

(** ** The page and the module state *)

Record Container := {
  toggleLabel : jsstring;   (* text of .pr-simplifier-toggle *)
  tabsDisplay : jsstring;   (* style.display of .pr-simplifier-tabs *)
  tabNav : list TabBtn;
  tabContent : list ContentChild
}.

Record Page := {
  timeline : list TimelineItem;   (* the .js-timeline-item nodes of .js-discussion *)
  discussionDisplay : jsstring;   (* discussion.style.display *)
  hiddenFlag : option jsstring;   (* discussion.dataset.prSimplifierHidden *)
  container : option Container;   (* .pr-simplifier-container *)
  isSimplified : bool;
  originalState : option jsstring (* originalState.discussionDisplay *)
}.

Section View.

Variable parseDate : jsstring -> Date.
Variable tza : Z -> Z.
Variable clock : nat -> Z.

Definition createSimplifiedView (p : Page) : Page :=
  let comments := turns parseDate (timeline p) in
  let dom := renderTabs tza clock comments in
  {| timeline := timeline p;
     discussionDisplay := lit "none";
     hiddenFlag := Some (lit "true");
     container := Some {| toggleLabel := lit "Show Original View";
                          tabsDisplay := [];
                          tabNav := dom.1;
                          tabContent := dom.2 |};
     isSimplified := true;
     originalState := Some (discussionDisplay p) |}.

(** [simplifyPR] on a pull-request page whose discussion is present. *)
Definition simplifyPR (p : Page) : Page :=
  match container p with
  | Some _ => p
  | None => createSimplifiedView p
  end.

End View.

Definition setActiveBtn (i : nat) (b : TabBtn) : TabBtn :=
  {| btnActive := (btnTabIndex b =? i)%nat; btnTabIndex := btnTabIndex b;
     authorIsBot := authorIsBot b; authorLabel := authorLabel b;
     timeLabel := timeLabel b |}.

Definition setActiveChild (i : nat) (c : ContentChild) : ContentChild :=
  match c with
  | Panel q =>
      Panel {| panelActive := (panelTabIndex q =? i)%nat;
               panelTabIndex := panelTabIndex q;
               panelComment := panelComment q;
               panelCommits := panelCommits q |}
  | NoComments t => NoComments t
  end.

Definition switchTab (i : nat) (p : Page) : Page :=
  {| timeline := timeline p;
     discussionDisplay := discussionDisplay p;
     hiddenFlag := hiddenFlag p;
     container :=
       (fun c => {| toggleLabel := toggleLabel c;
                    tabsDisplay := tabsDisplay c;
                    tabNav := setActiveBtn i <$> tabNav c;
                    tabContent := setActiveChild i <$> tabContent c |})
       <$> container p;
     isSimplified := isSimplified p;
     originalState := originalState p |}.

(** [toggleView()]; [None] when [container] is [null] and the call throws. *)
Definition toggleView (p : Page) : option Page :=
  match container p with
  | None => None
  | Some c =>
      if isSimplified p then
        Some {| timeline := timeline p;
                discussionDisplay := [];
                hiddenFlag := hiddenFlag p;
                container := Some {| toggleLabel := lit "Show Simplified View";
                                     tabsDisplay := lit "none";
                                     tabNav := tabNav c;
                                     tabContent := tabContent c |};
                isSimplified := false;
                originalState := originalState p |}
      else
        Some {| timeline := timeline p;
                discussionDisplay := lit "none";
                hiddenFlag := hiddenFlag p;
                container := Some {| toggleLabel := lit "Show Original View";
                                     tabsDisplay := [];
                                     tabNav := tabNav c;
                                     tabContent := tabContent c |};
                isSimplified := true;
                originalState := originalState p |}
  end.

(** ** A date parser for the examples *)

(** [Date.parse] restricted to the UTC date-time form
    [YYYY-MM-DDTHH:mm:ssZ] written in [datetime] attributes; every other
    string is unrecognised and gives NaN. *)
Module DateParser.

Definition digit (c : N) : option Z :=
  if ((48 <=? c) && (c <=? 57))%N then Some (Z.of_N c - 48) else None.

Definition num2 (a b : N) : option Z :=
  x ← digit a; y ← digit b; Some (10 * x + y).

Definition num4 (a b c d : N) : option Z :=
  x ← num2 a b; y ← num2 c d; Some (100 * x + y).

Definition makeTime (y mo d h mi s : Z) : Date :=
  if (1 <=? mo) && (mo <=? 12) && (1 <=? d) && (d <=? Calendar.daysInMonth y mo)
     && (mi <=? 59) && (s <=? 59)
     && ((h <=? 23) || (h =? 24) && (mi =? 0) && (s =? 0))
  then Some (Calendar.daysFromCivil y mo d * Calendar.msPerDay
             + h * 3600000 + mi * 60000 + s * 1000)
  else None.

Definition parse (s : jsstring) : Date :=
  match s with
  | [y1; y2; y3; y4; p1; m1; m2; p2; d1; d2; t; h1; h2; c1; i1; i2; c2; s1; s2; z] =>
      if ((p1 =? 45) && (p2 =? 45) && (t =? 84) && (c1 =? 58) && (c2 =? 58)
          && (z =? 90))%N
      then
        y ← num4 y1 y2 y3 y4; mo ← num2 m1 m2; d ← num2 d1 d2;
        h ← num2 h1 h2; mi ← num2 i1 i2; sec ← num2 s1 s2;
        makeTime y mo d h mi sec
      else None
  | _ => None
  end.

End DateParser.

(** ** Notions used by the properties *)

(** A comment-entry: not a commit marker, and with rendered body text. *)
Definition isCommentEntry (item : TimelineItem) : bool :=
  negb (isCommit item) && hasTextContent item.

Definition commentEntries (items : list TimelineItem) : list TimelineItem :=
  List.filter isCommentEntry items.

Definition commitEntries (items : list TimelineItem) : list TimelineItem :=
  List.filter isCommit items.

(** The Fingerprint in the words of the specification: the triple of the
    author, the raw timestamp string and the first 100 characters of the
    body text. *)
Definition fingerprintTriple (item : TimelineItem)
  : option jsstring * jsstring * jsstring :=
  (authorOf item, timeTextOf item,
   substring0 100 (trim (default [] (bodyElement item)))).

(** Number of distinct values of a list. *)
Definition distinct {A} `{EqDecision A} (l : list A) : nat :=
  length (remove_dups l).

(** The agent-signature marker family in the words of the specification,
    and the signal "the body ends with, or contains, a member of it". *)
Definition markerFamily : list jsstring :=
  [robot ++ lit " *agenthelper*"; robot ++ lit " agenthelper"].

Definition bodyHasMarker (item : TimelineItem) : bool :=
  existsb (fun m => endsWith (bodyTextOf item) m || includes (bodyTextOf item) m)
    markerFamily.

(** The raw author as the page reports it, for display. *)
Definition pageAuthor (item : TimelineItem) : jsstring :=
  orStr (default [] (authorOf item)) (lit "Unknown").

(** Newest first: no Turn is followed by a Turn with a later time value. *)
Definition NewestFirst (l : list CommentItem) : Prop :=
  ∀ (i j : nat) a b ta tb,
    (i < j)%nat → l !! i = Some a → l !! j = Some b →
    date a = Some ta → date b = Some tb → tb <= ta.

(** Turns with equal dates are in page order. *)
Definition TiesInPageOrder (l : list CommentItem) : Prop :=
  ∀ (i j : nat) a b,
    (i < j)%nat → l !! i = Some a → l !! j = Some b →
    date a = date b → (index a < index b)%nat.

(** [n] successive clicks on the toggle button. *)
Fixpoint toggleTimes (n : nat) (p : Page) : option Page :=
  match n with
  | O => Some p
  | S k => toggleView p ≫= toggleTimes k
  end.

Section Reachable.

Variable parseDate : jsstring -> Date.
Variable tza : Z -> Z.
Variable clock : nat -> Z.

(** The pages reached after a reconstruction, by clicks on the toggle
    button and on tabs, and by later runs of [simplifyPR]. *)
Inductive reached : Page -> Prop :=
| reached_reconstruct p :
    container p = None → reached (createSimplifiedView parseDate tza clock p)
| reached_toggle p p' :
    reached p → toggleView p = Some p' → reached p'
| reached_switch p i :
    reached p → reached (switchTab i p)
| reached_rerun p :
    reached p → reached (simplifyPR parseDate tza clock p).

End Reachable.

(** ** Notions used by the proofs *)

(** The comment objects and the commit nodes of a list of ordered items. *)
Definition commentsOf (o : list OrderedItem) : list CommentItem :=
  omap (fun x => match x with Comment c => Some c | CommitItem _ _ => None end) o.

Definition commitsOf (o : list OrderedItem) : list Node :=
  omap (fun x => match x with CommitItem el _ => Some el | Comment _ => None end) o.

(** An entry of [orderedItems] that comes from the timeline item at its
    index. *)
Definition fromPage (parseDate : jsstring -> Date) (items : list TimelineItem)
    (o : OrderedItem) : Prop :=
  match o with
  | CommitItem el i =>
      ∃ item, items !! i = Some item ∧ isCommit item = true
              ∧ el = cloneNode item i
  | Comment c =>
      ∃ item, items !! index c = Some item ∧ isCommentEntry item = true
              ∧ c = mkComment parseDate item (index c)
  end.

(** What the first pass guarantees of an ordered item: the node of a commit
    is named by its index, and a comment starts without commits. *)
Definition tidy (o : OrderedItem) : Prop :=
  match o with
  | CommitItem el i => nodeId el = i
  | Comment c => followingCommits c = []
  end.

(** The comment object [c] with [l] as its [followingCommits]. *)
Definition withCommits (c : CommentItem) (l : list Node) : CommentItem :=
  {| element := element c; author := author c; timestamp := timestamp c;
     date := date c; index := index c; isBot := isBot c;
     isReview := isReview c; followingCommits := l |}.

(** [a] goes before [b]: a later time value, or the same one and an earlier
    place on the page. *)
Definition goesBefore (a b : CommentItem) : Prop :=
  match date a, date b with
  | Some ta, Some tb => tb < ta ∨ (ta = tb ∧ (index a < index b)%nat)
  | _, _ => False
  end.

(** The key string of a triple. *)
Definition joinKey (t : option jsstring * jsstring * jsstring) : jsstring :=
  interp t.1.1 ++ lit "-" ++ t.1.2 ++ lit "-" ++ t.2.

(** The signature rule in the words of the specification, for one comment
    entry: a body with a member of the marker family makes the comment
    automated and displays "agenthelper"; without one, a bot marker in the
    author name makes it automated and leaves the author of the page. *)
Definition signatureClaim (parseDate : jsstring -> Date) (item : TimelineItem) : Prop :=
  (bodyHasMarker item = true →
     isBot (mkComment parseDate item 0) = true
     ∧ author (mkComment parseDate item 0) = lit "agenthelper")
  ∧ (bodyHasMarker item = false → isBotComment item = true →
     isBot (mkComment parseDate item 0) = true
     ∧ author (mkComment parseDate item 0) = pageAuthor item).

(** The module flag agrees with what the page shows. *)
Definition viewConsistent (p : Page) : Prop :=
  ∃ c, container p = Some c
       ∧ if isSimplified p
         then tabsDisplay c = [] ∧ discussionDisplay p = lit "none"
              ∧ toggleLabel c = lit "Show Original View"
         else tabsDisplay c = lit "none" ∧ discussionDisplay p = []
              ∧ toggleLabel c = lit "Show Simplified View".

(** The state of the second pass after the ordered items [o]. *)
Record grouped (o : list OrderedItem) (st : Pass2) : Prop := {
  grouped_last :
    (st.1 = [] ∧ st.2 = None)
    ∨ ∃ cs c, st.1 = cs ++ [c] ∧ st.2 = Some (length cs);
  grouped_sorted : StronglySorted lt (index <$> st.1);
  grouped_origin : ∀ T, T ∈ st.1 →
    ∃ c0, Comment c0 ∈ o ∧ T = withCommits c0 (followingCommits T);
  grouped_between : ∀ T c, T ∈ st.1 → c ∈ followingCommits T →
    CommitItem c (nodeId c) ∈ o ∧ (index T < nodeId c)%nat
    ∧ ∀ T', T' ∈ st.1 → ¬ (index T < index T' < nodeId c)%nat;
  grouped_order : ∀ T, T ∈ st.1 →
    StronglySorted lt (nodeId <$> followingCommits T);
  grouped_all : ∀ el i, CommitItem el i ∈ o →
    (∃ T, T ∈ st.1 ∧ (index T < i)%nat) → ∃ T, T ∈ st.1 ∧ el ∈ followingCommits T
}.

(** ** Example pages *)

Module Examples.

Definition comment (a t : option jsstring) (body : jsstring)
    (html : option jsstring) : TimelineItem :=
  {| hasCommitBadge := false; hasCommitsListItemClass := false;
     hasCommitsListItemChild := false;
     authorMarker := a; userLink := None; headerAuthor := None; userRef := None;
     timeElement := (fun s => {| datetimeAttr := Some s; timeTextContent := [] |}) <$> t;
     bodyElement := Some body; commentBodyHTML := html;
     hasReviewComment := false |}.

Definition commit : TimelineItem :=
  {| hasCommitBadge := true; hasCommitsListItemClass := false;
     hasCommitsListItemChild := false;
     authorMarker := None; userLink := None; headerAuthor := None; userRef := None;
     timeElement := None; bodyElement := None; commentBodyHTML := None;
     hasReviewComment := false |}.

(** A push event that also carries a rendered message. *)
Definition commitWithBody : TimelineItem :=
  {| hasCommitBadge := true; hasCommitsListItemClass := false;
     hasCommitsListItemChild := false;
     authorMarker := Some (lit "alice"); userLink := None; headerAuthor := None;
     userRef := None;
     timeElement := None; bodyElement := Some (lit "fix typo");
     commentBodyHTML := None; hasReviewComment := false |}.

Definition t0 : jsstring := lit "2024-01-15T10:30:00Z".
Definition t1 : jsstring := lit "2024-01-16T10:30:00Z".
Definition t2 : jsstring := lit "2024-01-17T10:30:00Z".

Definition signedBody : jsstring :=
  lit "Failed checks" ++ [10%N] ++ robot ++ lit " agenthelper".

Definition alice : TimelineItem :=
  comment (Some (lit "alice")) (Some t0) (lit "lgtm") (Some (lit "<p>lgtm</p>")).

Definition bob : TimelineItem :=
  comment (Some (lit "bob")) (Some t0) (lit "needs work") None.

Definition carol : TimelineItem :=
  comment (Some (lit "carol")) (Some t2) (lit "merged") None.

Definition agent : TimelineItem :=
  comment (Some (lit "ci[bot]")) (Some t1) signedBody None.

(** Scenario A: a comment, a commit, a signed comment; with a leading
    commit and a repeated render of the first comment. *)
Definition scenarioA : list TimelineItem :=
  [commit; alice; commit; alice; commit; agent].

(** Scenario D: a comment whose timestamp text is "N/A", then a comment
    with a valid timestamp. *)
Definition unparsable : TimelineItem :=
  comment (Some (lit "dave")) (Some (lit "N/A")) (lit "first") None.

Definition scenarioD : list TimelineItem := [unparsable; alice].

(** An unparsable timestamp between two valid ones. *)
Definition mixedDates : list TimelineItem := [alice; unparsable; carol].

(** Two comments whose triples differ and whose keys are the same string. *)
Definition hyphenLeft : TimelineItem :=
  comment (Some (lit "a-b")) (Some (lit "c")) (lit "d") None.
Definition hyphenRight : TimelineItem :=
  comment (Some (lit "a")) (Some (lit "b-c")) (lit "d") None.

(** The same signed comment: without an author element, and from a user
    whose name is "undefined". *)
Definition signedNoAuthor : TimelineItem :=
  comment None (Some t0) signedBody None.
Definition signedUndefined : TimelineItem :=
  comment (Some (lit "undefined")) (Some t0) signedBody None.
Definition signedAlice : TimelineItem :=
  comment (Some (lit "alice")) (Some t0) signedBody None.
Definition signedBob : TimelineItem :=
  comment (Some (lit "bob")) (Some t0) signedBody None.

(** A [.markdown-body] whose text holds the marker with its asterisks,
    and a bot comment that only ends with the word "agenthelper". *)
Definition literalMarker : TimelineItem :=
  comment (Some (lit "alice")) (Some t0)
    (robot ++ lit " *agenthelper*") None.
Definition botMention : TimelineItem :=
  comment (Some (lit "dependabot[bot]")) (Some t0)
    (lit "cc agenthelper") None.
Definition plainBot : TimelineItem :=
  comment (Some (lit "dependabot[bot]")) (Some t0) (lit "bump lodash") None.
(** The word is only in an attribute of the HTML of [.comment-body]. *)
Definition htmlMention : TimelineItem :=
  comment (Some (lit "alice")) (Some t0) (lit "see the helper")
    (Some (lit "<p>see the <a href=/dave/agenthelper>helper</a></p>")).

Definition utc : Z -> Z := fun _ => 0.
(** 2024-01-18T10:30:00Z *)
Definition now : nat -> Z := fun _ => 1705573800000.

Definition freshPage (items : list TimelineItem) : Page :=
  {| timeline := items; discussionDisplay := []; hiddenFlag := None;
     container := None; isSimplified := false; originalState := None |}.

(** The Turn of [alice] on the page of Scenario A. *)
Definition aliceTurn : CommentItem :=
  withCommits (mkComment DateParser.parse alice 1)
    [cloneNode commit 2; cloneNode commit 4].

End Examples.

(** ** Where the script runs *)

(** [\d] of a regular expression without the unicode flag. *)
Definition isDigit (c : N) : bool := ((48 <=? c) && (c <=? 57))%N.

Fixpoint skipDigits (s : jsstring) : jsstring :=
  match s with
  | c :: s' => if isDigit c then skipDigits s' else s
  | [] => []
  end.

(** [\d+$] ([slash = false]) or [\d+\/?$] ([slash = true]) matched at the
    start of [s].  The digits are taken greedily; giving one back cannot
    help, for a digit would follow and [$] only holds at the end of the
    input. *)
Definition digitsToEnd (slash : bool) (s : jsstring) : bool :=
  match s with
  | [] => false
  | c :: s' =>
      isDigit c
      && match skipDigits s' with
         | [] => true
         | [d] => slash && (d =? 47)%N
         | _ => false
         end
  end.

(** [pathname.match(/\/pull\/\d+$/)] and [pathname.match(/\/pull\/\d+\/?$/)]
    as truth values: the expression is tried at every position. *)
Fixpoint matchPull (slash : bool) (s : jsstring) : bool :=
  startsWith s (lit "/pull/") && digitsToEnd slash (drop 6 s)
  || match s with
     | [] => false
     | _ :: s' => matchPull slash s'
     end.

(** The guard at the top of the script: [false] when it returns before
    [init]. *)
Definition scriptRuns (pathname : jsstring) : bool :=
  if negb (matchPull false pathname) then
    if negb (matchPull true pathname) then false else true
  else true.

(** The document that [simplifyPR] looks at: without [.js-discussion] (and
    with or without a [.pr-simplifier-container]), or with it. *)
Inductive Dom :=
| NoDiscussion (hasContainer : bool)
| Discussion (p : Page).

Record Document := {
  pathname : jsstring;
  dom : Dom
}.

Section Retry.

Variable parseDate : jsstring -> Date.
Variable tza : Z -> Z.
Variable clock : nat -> Z.

(** [simplifyPR()] on a document; the boolean tells whether the call ended
    with [setTimeout(simplifyPR, 500)]. *)
Definition simplifyPRDoc (doc : Document) : Document * bool :=
  if negb (matchPull true (pathname doc)) then (doc, false)
  else
    match dom doc with
    | NoDiscussion true => (doc, false)
    | NoDiscussion false => (doc, true)
    | Discussion p =>
        ({| pathname := pathname doc;
            dom := Discussion (simplifyPR parseDate tza clock p) |}, false)
    end.

(** The calls of [simplifyPR] that one timer leads to, on a document that
    nothing else changes: each call that asks for a retry is followed by the
    next one.  The boolean tells whether a timer is still pending after
    [n] calls. *)
Fixpoint retries (n : nat) (doc : Document) : Document * bool :=
  match n with
  | O => (doc, true)
  | S k =>
      let r := simplifyPRDoc doc in
      if r.2 then retries k r.1 else (r.1, false)
  end.

End Retry.

(** ** Clicks *)

Section Clicks.

Variable parseDate : jsstring -> Date.
Variable tza : Z -> Z.
Variable clock : nat -> Z.


End Clicks.

(** Each tab button and each panel carries its position as its
    [tabIndex], there is a panel for every button, and the placeholder
    stands alone. *)
Definition indexedTabs (c : Container) : Prop :=
  (∀ k b, tabNav c !! k = Some b → btnTabIndex b = k)
  ∧ (∀ k q, tabContent c !! k = Some (Panel q) →
       panelTabIndex q = k ∧ (k < length (tabNav c))%nat)
  ∧ (∀ k, (k < length (tabNav c))%nat →
       ∃ q, tabContent c !! k = Some (Panel q)).

(** Tab [a] is the active one: its button and its panel, and no other. *)
Definition activeTab (a : nat) (c : Container) : Prop :=
  (∀ k b, tabNav c !! k = Some b → btnActive b = (k =? a)%nat)
  ∧ (∀ k q, tabContent c !! k = Some (Panel q) → panelActive q = (k =? a)%nat).

(** More example pages. *)
Module Cases.

Definition blank : TimelineItem :=
  Examples.comment (Some (lit "erin")) (Some Examples.t1) [32%N; 10%N; 9%N] None.

Definition noTimestamp : TimelineItem :=
  Examples.comment (Some (lit "frank")) None (lit "old note") None.

Definition anonymous : TimelineItem :=
  Examples.comment None (Some Examples.t1) (lit "drive-by") None.

Definition abbott : TimelineItem :=
  Examples.comment (Some (lit "abbott")) (Some Examples.t1) (lit "hello") None.

(** Two long comments that agree on their first 100 code units. *)
Definition longA : TimelineItem :=
  Examples.comment (Some (lit "gina")) (Some Examples.t1)
    (List.repeat 120%N 100 ++ lit "first ending") None.
Definition longB : TimelineItem :=
  Examples.comment (Some (lit "gina")) (Some Examples.t1)
    (List.repeat 120%N 100 ++ lit "second ending") None.

Definition prPath : jsstring := lit "/davefowler/asql/pull/123".
Definition filesPath : jsstring := lit "/davefowler/asql/pull/123/files".

Definition waiting : Document :=
  {| pathname := prPath; dom := NoDiscussion false |}.

Definition loaded : Document :=
  {| pathname := prPath;
     dom := Discussion (Examples.freshPage Examples.scenarioA) |}.

End Cases.

(** * Properties *)

(** ** The calendar and [formatTimeAgo] *)

Lemma dayOfYear_bounds (doe : Z) :
  0 <= doe < 146097 →
  0 <= doe - (365 * ((doe - doe / 1460 + doe / 36524 - doe / 146096) / 365)
              + (doe - doe / 1460 + doe / 36524 - doe / 146096) / 365 / 4
              - (doe - doe / 1460 + doe / 36524 - doe / 146096) / 365 / 100)
    <= 365.
Proof. intros H. Z.div_mod_to_equations. lia. Qed.

Lemma monthDay_bounds (doy : Z) :
  0 <= doy <= 365 →
  0 <= (5 * doy + 2) / 153 <= 11
  ∧ 1 <= doy - (153 * ((5 * doy + 2) / 153) + 2) / 5 + 1 <= 31.
Proof. intros H. Z.div_mod_to_equations. lia. Qed.

Lemma civilFromDays_bounds (days : Z) :
  ∃ y m d, Calendar.civilFromDays days = (y, m, d)
           ∧ 1 <= m <= 12 ∧ 1 <= d <= 31.
Proof.
  unfold Calendar.civilFromDays. cbv zeta.
  set (doe := (days + 719468) mod 146097).
  assert (Hdoe : 0 <= doe < 146097) by (apply Z.mod_pos_bound; lia).
  pose proof (dayOfYear_bounds doe Hdoe) as Hdoy.
  set (yoe := (doe - doe / 1460 + doe / 36524 - doe / 146096) / 365) in *.
  set (doy := doe - (365 * yoe + yoe / 4 - yoe / 100)) in *.
  destruct (monthDay_bounds doy Hdoy) as [Hmp Hd].
  set (mp := (5 * doy + 2) / 153) in *.
  eexists _, _, _. split; [reflexivity|]. split; [|exact Hd].
  destruct (Z.ltb_spec mp 10); lia.
Qed.

Lemma toLocaleDateString_short tza (t : Z) :
  ∃ m d, 1 <= m <= 12 ∧ 1 <= d <= 31
         ∧ toLocaleDateString tza (Some t)
           = Calendar.monthShort m ++ lit " " ++ numToString d.
Proof.
  unfold toLocaleDateString.
  destruct (civilFromDays_bounds ((t + tza t) / Calendar.msPerDay))
    as (y & m & d & -> & Hm & Hd).
  by exists m, d.
Qed.

Lemma yoe_recover (yoe doy : Z) :
  0 <= yoe < 400 → 0 <= doy →
  doy < 365 + (if Calendar.isLeap (yoe + 1) then 1 else 0) →
  let doe := yoe * 365 + yoe / 4 - yoe / 100 + doy in
  0 <= doe < 146097
  ∧ (doe - doe / 1460 + doe / 36524 - doe / 146096) / 365 = yoe.
Proof.
  intros Hy Hd Hl doe. subst doe. unfold Calendar.isLeap in Hl.
  destruct (Z.eqb_spec ((yoe + 1) mod 4) 0), (Z.eqb_spec ((yoe + 1) mod 100) 0),
    (Z.eqb_spec ((yoe + 1) mod 400) 0); simpl in Hl;
  Z.div_mod_to_equations; lia.
Qed.

Lemma isLeap_yoe (y : Z) :
  Calendar.isLeap ((y - 1) mod 400 + 1) = Calendar.isLeap y.
Proof.
  unfold Calendar.isLeap.
  replace (((y - 1) mod 400 + 1) mod 4) with (y mod 4)
    by (Z.div_mod_to_equations; lia).
  replace (((y - 1) mod 400 + 1) mod 100) with (y mod 100)
    by (Z.div_mod_to_equations; lia).
  replace (((y - 1) mod 400 + 1) mod 400) with (y mod 400)
    by (Z.div_mod_to_equations; lia).
  done.
Qed.

Lemma civil_of_parts (era yoe doy : Z) :
  0 <= yoe < 400 → 0 <= doy →
  doy < 365 + (if Calendar.isLeap (yoe + 1) then 1 else 0) →
  Calendar.civilFromDays
    (era * 146097 + (yoe * 365 + yoe / 4 - yoe / 100 + doy) - 719468)
  = (let mp := (5 * doy + 2) / 153 in
     let m := if mp <? 10 then mp + 3 else mp - 9 in
     (yoe + era * 400 + (if m <=? 2 then 1 else 0), m,
      doy - (153 * mp + 2) / 5 + 1)).
Proof.
  intros Hy Hd Hl.
  destruct (yoe_recover yoe doy Hy Hd Hl) as [Hdoe Hyoe].
  unfold Calendar.civilFromDays. cbv zeta.
  set (doe := yoe * 365 + yoe / 4 - yoe / 100 + doy) in *.
  replace (era * 146097 + doe - 719468 + 719468) with (doe + era * 146097) by lia.
  rewrite Z.div_add, Z.mod_add by lia.
  rewrite (Z.div_small doe 146097), (Z.mod_small doe 146097) by lia. simpl.
  rewrite Hyoe.
  replace (doe - (365 * yoe + yoe / 4 - yoe / 100)) with doy by (unfold doe; lia).
  done.
Qed.

Lemma month_recover (mp d : Z) :
  0 <= mp <= 11 → 1 <= d →
  (153 * mp + 2) / 5 + d - 1 < (153 * (mp + 1) + 2) / 5 →
  (5 * ((153 * mp + 2) / 5 + d - 1) + 2) / 153 = mp.
Proof. intros Hmp Hd Hlt. Z.div_mod_to_equations. lia. Qed.

(** [civilFromDays] inverts [daysFromCivil] on the dates of the calendar. *)
Lemma civil_roundtrip (y m d : Z) :
  1 <= m <= 12 → 1 <= d <= Calendar.daysInMonth y m →
  Calendar.civilFromDays (Calendar.daysFromCivil y m d) = (y, m, d).
Proof.
  intros Hm Hd. unfold Calendar.daysFromCivil. cbv zeta.
  assert (Hcases : m = 1 ∨ m = 2 ∨ m = 3 ∨ m = 4 ∨ m = 5 ∨ m = 6 ∨ m = 7
                   ∨ m = 8 ∨ m = 9 ∨ m = 10 ∨ m = 11 ∨ m = 12) by lia.
  pose proof (isLeap_yoe y) as Hleap.
  pose proof (Z.mod_pos_bound (y - 1) 400 eq_refl) as Hb1.
  pose proof (Z.mod_pos_bound y 400 eq_refl) as Hb2.
  pose proof (Z.div_mod (y - 1) 400 ltac:(lia)) as He1.
  pose proof (Z.div_mod y 400 ltac:(lia)) as He2.
  destruct Hcases as [->|[->|[->|[->|[->|[->|[->|[->|[->|[->|[->| ->]]]]]]]]]]];
    simpl in Hd |- *;
    (rewrite civil_of_parts;
     [ match goal with
       | |- context [(153 * ?mp + 2) / 5 + d - 1] =>
           cbv zeta; rewrite (month_recover mp d)
       end
     | lia
     | Z.div_mod_to_equations; lia
     | ]).
  all: try (rewrite ?Hleap;
            match goal with
            | |- context [Calendar.isLeap ?a] => destruct (Calendar.isLeap a)
            end; Z.div_mod_to_equations; lia).
  all: try (Z.div_mod_to_equations; lia).
  all: try (simpl; f_equal; [f_equal|]; Z.div_mod_to_equations; lia).
  destruct (Calendar.isLeap y); Z.div_mod_to_equations; lia.
Qed.

(** The short date of a parsed timestamp, read in UTC, is the month and the
    day that were written. *)
Lemma makeTime_short_date (y mo d h mi s t : Z) :
  0 <= h <= 23 → 0 <= mi → 0 <= s →
  DateParser.makeTime y mo d h mi s = Some t →
  toLocaleDateString (fun _ => 0) (Some t)
  = Calendar.monthShort mo ++ lit " " ++ numToString d.
Proof.
  intros Hh Hmi Hs. unfold DateParser.makeTime.
  destruct (_ && _) eqn:Hok; [|done]. intros [= <-].
  repeat (apply andb_prop in Hok as [Hok ?]).
  unfold toLocaleDateString, Calendar.msPerDay.
  replace ((Calendar.daysFromCivil y mo d * 86400000 + h * 3600000 + mi * 60000
            + s * 1000 + 0) / 86400000)
    with (Calendar.daysFromCivil y mo d) by (Z.div_mod_to_equations; lia).
  rewrite civil_roundtrip by lia. done.
Qed.

Lemma formatTimeAgo_invalid tza now :
  formatTimeAgo tza now (Some None) = lit "Invalid Date".
Proof. reflexivity. Qed.

Lemma formatTimeAgo_steps tza now (t : Z) :
  t ≠ 0 →
  formatTimeAgo tza now (Some (Some t)) =
    if (now - t) / 60000 <? 1 then lit "just now"
    else if (now - t) / 60000 <? 60 then numToString ((now - t) / 60000) ++ lit "m ago"
    else if (now - t) / 3600000 <? 24 then numToString ((now - t) / 3600000) ++ lit "h ago"
    else if (now - t) / 86400000 <? 7 then numToString ((now - t) / 86400000) ++ lit "d ago"
    else toLocaleDateString tza (Some t).
Proof. intros Ht. destruct t; [congruence | reflexivity | reflexivity]. Qed.

Lemma floor_ltb (a k c : Z) : 0 < k → (a / k <? c) = (a <? c * k).
Proof.
  intros Hk. destruct (Z.ltb_spec (a / k) c), (Z.ltb_spec a (c * k)); try done.
  - pose proof (Z.div_le_lower_bound a k c Hk). lia.
  - pose proof (Z.div_lt_upper_bound a k c Hk). lia.
Qed.

(** C6. The epoch-zero time value always renders as the empty string.  Any
    other time value [t] with [t <= now] renders by the age [now - t]:
    "just now" under one minute, the whole minutes followed by "m ago" under
    60 minutes, the whole hours followed by "h ago" under 24 hours, the whole
    days followed by "d ago" under 7 days, and otherwise the short date of
    [t], a month abbreviation and a day of the month. *)
Theorem formatTimeAgo_rule tza :
  (∀ now, formatTimeAgo tza now (Some (Some 0)) = [])
  ∧ ∀ now t, t ≠ 0 → t <= now →
      formatTimeAgo tza now (Some (Some t)) =
        (if now - t <? 60000 then lit "just now"
         else if now - t <? 3600000 then
           numToString ((now - t) / 60000) ++ lit "m ago"
         else if now - t <? 86400000 then
           numToString ((now - t) / 3600000) ++ lit "h ago"
         else if now - t <? 604800000 then
           numToString ((now - t) / 86400000) ++ lit "d ago"
         else toLocaleDateString tza (Some t))
      ∧ ∃ m d, 1 <= m <= 12 ∧ 1 <= d <= 31
               ∧ toLocaleDateString tza (Some t)
                 = Calendar.monthShort m ++ lit " " ++ numToString d.
Proof.
  split; [reflexivity|]. intros now t Ht Hle.
  split; [|apply toLocaleDateString_short].
  rewrite formatTimeAgo_steps by done.
  rewrite (floor_ltb _ 60000 1), (floor_ltb _ 60000 60),
    (floor_ltb _ 3600000 24), (floor_ltb _ 86400000 7) by lia.
  reflexivity.
Qed.

Lemma formatTimeAgo_rule_witness :
  formatTimeAgo Examples.utc 1705573800000 (Some (Some 1705314600000))
  = lit "3d ago".
Proof.
  destruct (formatTimeAgo_rule Examples.utc) as [_ H].
  destruct (H 1705573800000 1705314600000) as [E _]; [lia|lia|].
  exact E.
Defined.

Example formatTimeAgo_cases :
  formatTimeAgo Examples.utc 1705314630000 (Some (Some 1705314600000)) = lit "just now"
  ∧ formatTimeAgo Examples.utc 1705315200000 (Some (Some 1705314600000)) = lit "10m ago"
  ∧ formatTimeAgo Examples.utc 1705325400000 (Some (Some 1705314600000)) = lit "3h ago"
  ∧ formatTimeAgo Examples.utc 1706000000000 (Some (Some 1705314600000)) = lit "Jan 15"
  ∧ formatTimeAgo Examples.utc 1706000000000 (Some (Some 0)) = [].
Proof. by vm_compute. Qed.

(** ** The first pass *)

Section FirstPass.

Variable parseDate : jsstring -> Date.

Lemma forEachFrom_app {A St} (f : A -> nat -> St -> St) l1 l2 i s :
  forEachFrom f (l1 ++ l2) i s
  = forEachFrom f l2 (i + length l1)%nat (forEachFrom f l1 i s).
Proof.
  revert i s. induction l1 as [|x l1 IH]; intros i s; simpl.
  - by rewrite Nat.add_0_r.
  - rewrite IH. f_equal. lia.
Qed.

Lemma firstPass_snoc items item :
  firstPass parseDate (items ++ [item])
  = collect parseDate item (length items) (firstPass parseDate items).
Proof. unfold firstPass. by rewrite forEachFrom_app. Qed.

(** What [collect] does, by the kind of the entry. *)
Lemma collect_commit item i st :
  isCommit item = true →
  collect parseDate item i st = (st.1, st.2 ++ [CommitItem (cloneNode item i) i]).
Proof. intros H. unfold collect. by rewrite H. Qed.

Lemma collect_comment item i st :
  isCommentEntry item = true →
  collect parseDate item i st
  = if decide (contentKey item ∈ st.1) then st
    else ({[contentKey item]} ∪ st.1, st.2 ++ [Comment (mkComment parseDate item i)]).
Proof.
  unfold isCommentEntry, collect. intros [Hc Ht]%andb_prop.
  apply negb_true_iff in Hc. by rewrite Hc, Ht.
Qed.

Lemma collect_dropped item i st :
  isCommit item = false → isCommentEntry item = false →
  collect parseDate item i st = st.
Proof.
  unfold isCommentEntry, collect. intros -> Ht. simpl in Ht. by rewrite Ht.
Qed.

Lemma commentEntries_snoc items item :
  commentEntries (items ++ [item])
  = commentEntries items ++ (if isCommentEntry item then [item] else []).
Proof. unfold commentEntries. by rewrite List.filter_app. Qed.

Lemma isCommentEntry_not_commit item :
  isCommentEntry item = true → isCommit item = false.
Proof. unfold isCommentEntry. intros [H _]%andb_prop. by apply negb_true_iff. Qed.

(** The set of seen keys holds the keys of the comment-entries met so far. *)
Lemma firstPass_seen items :
  (firstPass parseDate items).1
  = list_to_set (contentKey <$> commentEntries items).
Proof.
  induction items as [|item items IH] using rev_ind; [done|].
  rewrite firstPass_snoc, commentEntries_snoc, fmap_app, list_to_set_app_L, <- IH.
  destruct (isCommentEntry item) eqn:He.
  - rewrite collect_comment by done.
    change (list_to_set (contentKey <$> [item]) : gset jsstring)
      with ({[contentKey item]} ∪ (∅ : gset jsstring)).
    rewrite (right_id_L ∅ (∪)).
    case_decide as Hin; simpl.
    + symmetry. rewrite (comm_L (∪)). apply subseteq_union_1_L.
      by apply singleton_subseteq_l.
    + apply (comm_L (∪)).
  - change (list_to_set (contentKey <$> []) : gset jsstring) with (∅ : gset jsstring).
    rewrite (right_id_L ∅ (∪)).
    destruct (isCommit item) eqn:Hc.
    + by rewrite collect_commit.
    + by rewrite collect_dropped.
Qed.

Lemma fromPage_lt items o : fromPage parseDate items o → (itemIndex o < length items)%nat.
Proof.
  destruct o as [el i|c]; simpl; intros (item & H & _); by eapply lookup_lt_Some.
Qed.

Lemma fromPage_app items more o : fromPage parseDate items o → fromPage parseDate (items ++ more) o.
Proof.
  destruct o as [el i|c]; simpl; intros (item & H & ?); exists item;
    (split; [by apply lookup_app_l_Some|done]).
Qed.

Lemma orderedItems_fromPage items :
  Forall (fromPage parseDate items) (orderedItems parseDate items).
Proof.
  unfold orderedItems.
  induction items as [|item items IH] using rev_ind; [by constructor|].
  rewrite firstPass_snoc.
  assert (Hold : Forall (fromPage parseDate (items ++ [item])) (firstPass parseDate items).2).
  { eapply Forall_impl; [exact IH|]. intros o. apply fromPage_app. }
  assert (Hat : (items ++ [item]) !! length items = Some item).
  { by rewrite lookup_app_r, Nat.sub_diag by lia. }
  destruct (isCommit item) eqn:Hc.
  - rewrite collect_commit by done. simpl.
    apply Forall_app. split; [done|]. constructor; [|constructor].
    simpl. by exists item.
  - destruct (isCommentEntry item) eqn:He.
    + rewrite collect_comment by done. case_decide; [done|]. simpl.
      apply Forall_app. split; [done|]. constructor; [|constructor].
      simpl. by exists item.
    + by rewrite collect_dropped.
Qed.

(** Page order is kept: the indices of [orderedItems] increase strictly. *)
Lemma orderedItems_sorted items :
  StronglySorted lt (itemIndex <$> orderedItems parseDate items).
Proof.
  unfold orderedItems.
  induction items as [|item items IH] using rev_ind; [constructor|].
  rewrite firstPass_snoc.
  assert (Hsnoc : ∀ o, itemIndex o = length items →
    StronglySorted lt (itemIndex <$> (firstPass parseDate items).2 ++ [o])).
  { intros o Ho. rewrite fmap_app. apply StronglySorted_app.
    split; [|split; [done|repeat constructor]].
    intros x1 x2 H1 H2. apply list_elem_of_fmap in H1 as (o1 & -> & H1).
    apply list_elem_of_singleton in H2 as ->. rewrite Ho.
    apply fromPage_lt.
    pose proof (orderedItems_fromPage items) as HF.
    rewrite Forall_forall in HF. by apply HF. }
  destruct (isCommit item) eqn:Hc.
  - rewrite collect_commit by done. by apply Hsnoc.
  - destruct (isCommentEntry item) eqn:He.
    + rewrite collect_comment by done. case_decide; [done|]. by apply Hsnoc.
    + by rewrite collect_dropped.
Qed.

Lemma distinct_snoc {A} `{EqDecision A} (l : list A) (k : A) :
  distinct (l ++ [k]) = if decide (k ∈ l) then distinct l else S (distinct l).
Proof.
  unfold distinct. induction l as [|x l IH]; simpl.
  - repeat case_decide; done.
  - destruct (decide_rel elem_of x (l ++ [k])) as [H1|H1],
      (decide_rel elem_of x l) as [H2|H2],
      (decide (k ∈ x :: l)) as [H3|H3]; simpl; rewrite ?IH;
      destruct (decide (k ∈ l)) as [H4|H4]; try done;
      rewrite ?elem_of_app, ?elem_of_cons, ?elem_of_nil in *;
      intuition (subst; done).
Qed.

Lemma distinct_le {A} `{EqDecision A} (l : list A) : (distinct l <= length l)%nat.
Proof.
  unfold distinct. induction l as [|x l IH]; simpl; [lia|].
  case_decide; simpl; lia.
Qed.

(** The surviving comments are as many as the distinct keys. *)
Lemma orderedItems_comments_count items :
  length (commentsOf (orderedItems parseDate items))
  = distinct (contentKey <$> commentEntries items).
Proof.
  unfold orderedItems.
  induction items as [|item items IH] using rev_ind; [done|].
  rewrite firstPass_snoc, commentEntries_snoc.
  destruct (isCommentEntry item) eqn:He.
  - rewrite collect_comment by done. rewrite fmap_app. simpl.
    rewrite distinct_snoc, firstPass_seen.
    destruct (decide (contentKey item ∈ contentKey <$> commentEntries items)) as [Hin|Hin].
    + rewrite decide_True by by apply elem_of_list_to_set. done.
    + rewrite decide_False by by rewrite elem_of_list_to_set. simpl.
      unfold commentsOf in *. rewrite omap_app, length_app. simpl. lia.
  - rewrite app_nil_r, <- IH. destruct (isCommit item) eqn:Hc.
    + rewrite collect_commit by done. simpl.
      unfold commentsOf. rewrite omap_app. simpl. by rewrite app_nil_r.
    + by rewrite collect_dropped.
Qed.

(** Every commit entry is kept, once, with its own node. *)
Lemma orderedItems_commits items :
  commitsOf (orderedItems parseDate items)
  = omap (fun x => if isCommit x.2 then Some (cloneNode x.2 x.1) else None)
         (imap pair items).
Proof.
  unfold orderedItems.
  induction items as [|item items IH] using rev_ind; [done|].
  rewrite firstPass_snoc, imap_app, omap_app. simpl. rewrite Nat.add_0_r, <- IH.
  destruct (isCommit item) eqn:Hc.
  - rewrite collect_commit by done. simpl. unfold commitsOf. by rewrite omap_app.
  - rewrite app_nil_r. destruct (isCommentEntry item) eqn:He.
    + rewrite collect_comment by done. case_decide; [done|]. simpl.
      unfold commitsOf. rewrite omap_app. simpl. by rewrite app_nil_r.
    + by rewrite collect_dropped.
Qed.

Lemma orderedItems_commit_entries items :
  content <$> commitsOf (orderedItems parseDate items) = commitEntries items.
Proof.
  unfold orderedItems, commitEntries.
  induction items as [|item items IH] using rev_ind; [done|].
  rewrite firstPass_snoc, List.filter_app, <- IH. simpl.
  destruct (isCommit item) eqn:Hc.
  - rewrite collect_commit by done. simpl. unfold commitsOf.
    by rewrite omap_app, fmap_app.
  - rewrite app_nil_r. destruct (isCommentEntry item) eqn:He.
    + rewrite collect_comment by done. case_decide; [done|]. simpl.
      unfold commitsOf. rewrite omap_app. simpl. by rewrite app_nil_r.
    + by rewrite collect_dropped.
Qed.

Lemma orderedItems_commit_kept items i item :
  items !! i = Some item → isCommit item = true →
  CommitItem (cloneNode item i) i ∈ orderedItems parseDate items.
Proof.
  unfold orderedItems. revert i item.
  induction items as [|x items IH] using rev_ind; intros i item Hi Hc; [done|].
  rewrite firstPass_snoc.
  assert (Hmono : ∀ o, o ∈ (firstPass parseDate items).2 →
            o ∈ (collect parseDate x (length items) (firstPass parseDate items)).2).
  { intros o Ho. unfold collect.
    repeat case_match; simpl; try done; apply elem_of_app; by left. }
  destruct (decide (i < length items)%nat) as [Hlt|Hge].
  - apply Hmono, IH; [|done]. by rewrite lookup_app_l in Hi.
  - rewrite lookup_app_r in Hi by lia.
    apply list_lookup_singleton_Some in Hi as [Hi0 ->].
    assert (i = length items) as -> by lia.
    rewrite collect_commit by done. simpl. apply elem_of_app. right. by left.
Qed.

(** A comment-entry survives when no earlier comment-entry has its key. *)
Lemma orderedItems_comment_kept_iff items i item :
  items !! i = Some item → isCommentEntry item = true →
  Comment (mkComment parseDate item i) ∈ orderedItems parseDate items
  ↔ contentKey item ∉ contentKey <$> commentEntries (take i items).
Proof.
  unfold orderedItems. revert i item.
  induction items as [|x items IH] using rev_ind; intros i item Hi He; [done|].
  rewrite firstPass_snoc.
  destruct (decide (i < length items)%nat) as [Hlt|Hge].
  - rewrite lookup_app_l in Hi by done.
    rewrite take_app_le by lia. rewrite <- (IH i item Hi He).
    assert (Hne : ∀ o, itemIndex o = length items → Comment (mkComment parseDate item i) ≠ o).
    { intros o Ho <-. simpl in Ho. lia. }
    unfold collect. repeat case_match; simpl; try done;
      rewrite elem_of_app, list_elem_of_singleton;
      (split; [intros [?|Heq]; [done|by eapply Hne in Heq] | by left]).
  - rewrite lookup_app_r in Hi by lia.
    apply list_lookup_singleton_Some in Hi as [Hi0 ->].
    assert (i = length items) as -> by lia.
    rewrite take_app_length.
    rewrite collect_comment by done.
    assert (Hold : Comment (mkComment parseDate item (length items))
                   ∉ (firstPass parseDate items).2).
    { intros Hin. pose proof (orderedItems_fromPage items) as HF.
      rewrite Forall_forall in HF. apply HF, fromPage_lt in Hin. simpl in Hin. lia. }
    rewrite firstPass_seen. case_decide as Hin.
    + rewrite elem_of_list_to_set in Hin. split; [done|]. intros Hn. by destruct Hn.
    + rewrite elem_of_list_to_set in Hin. split; [done|]. intros _. simpl.
      apply elem_of_app. right. by left.
Qed.

End FirstPass.

(** ** The second pass *)

Lemma secondPass_snoc o x : secondPass (o ++ [x]) = group x (secondPass o).
Proof. unfold secondPass. by rewrite fold_left_app. Qed.

Lemma sorted_snoc_lt (o : list OrderedItem) x :
  StronglySorted lt (itemIndex <$> (o ++ [x])) →
  StronglySorted lt (itemIndex <$> o)
  ∧ ∀ y, y ∈ o → (itemIndex y < itemIndex x)%nat.
Proof.
  rewrite fmap_app. intros (Hlt & Ho & _)%StronglySorted_app. split; [done|].
  intros y Hy. apply Hlt; [by apply list_elem_of_fmap_2|by left].
Qed.

Lemma grouped_nil : grouped [] ([], None).
Proof.
  split; simpl.
  - by left.
  - constructor.
  - intros T H. by apply not_elem_of_nil in H.
  - intros T c H. by apply not_elem_of_nil in H.
  - intros T H. by apply not_elem_of_nil in H.
  - intros el i H. by apply not_elem_of_nil in H.
Qed.

Lemma grouped_comment o st c' :
  grouped o st → followingCommits c' = [] →
  (∀ y, y ∈ o → (itemIndex y < index c')%nat) →
  grouped (o ++ [Comment c']) (group (Comment c') st).
Proof.
  intros [Hlast Hsorted Horigin Hbetween Horder Hall] Hnil Hlt. simpl.
  assert (Hidx : ∀ T, T ∈ st.1 → (index T < index c')%nat).
  { intros T (c0 & Hc0 & ->)%Horigin. by apply (Hlt (Comment c0)). }
  split; simpl.
  - right. by exists st.1, c'.
  - rewrite fmap_app. apply StronglySorted_app. split; [|split; [done|repeat constructor]].
    intros x1 x2 (T & -> & HT)%list_elem_of_fmap ->%list_elem_of_singleton. by apply Hidx.
  - intros T [HT | ->%list_elem_of_singleton]%elem_of_app.
    + destruct (Horigin T HT) as (c0 & Hc0 & HT0). exists c0.
      split; [apply elem_of_app; by left|done].
    + exists c'. split; [apply elem_of_app; right; by left|].
      rewrite Hnil. destruct c'; simpl in *; by subst.
  - intros T c [HT | ->%list_elem_of_singleton]%elem_of_app Hc.
    + destruct (Hbetween T c HT Hc) as (Hin & Hafter & Hnone).
      split; [apply elem_of_app; by left|]. split; [done|].
      intros T' [HT' | ->%list_elem_of_singleton]%elem_of_app; [by apply Hnone|].
      specialize (Hlt _ Hin). simpl in Hlt. lia.
    + rewrite Hnil in Hc. by apply not_elem_of_nil in Hc.
  - intros T [HT | ->%list_elem_of_singleton]%elem_of_app; [by apply Horder|].
    rewrite Hnil. constructor.
  - intros el i [Hin | Heq%list_elem_of_singleton]%elem_of_app; [|done].
    intros (T & [HT | ->%list_elem_of_singleton]%elem_of_app & Hi).
    + destruct (Hall el i Hin) as (T1 & HT1 & Hel); [by exists T|].
      exists T1. split; [apply elem_of_app; by left|done].
    + specialize (Hlt _ Hin). simpl in Hlt. lia.
Qed.

Lemma grouped_commit o st el i :
  grouped o st → nodeId el = i →
  (∀ y, y ∈ o → (itemIndex y < i)%nat) →
  grouped (o ++ [CommitItem el i]) (group (CommitItem el i) st).
Proof.
  intros [Hlast Hsorted Horigin Hbetween Horder Hall] Hid Hlt.
  assert (Hidx : ∀ T, T ∈ st.1 → (index T < i)%nat).
  { intros T (c0 & Hc0 & ->)%Horigin. by apply (Hlt (Comment c0)). }
  destruct Hlast as [[Hnil Hnone] | (cs & c & Hcs & Hsome)]; simpl; rewrite ?Hnone, ?Hsome.
  - (* no comment yet: the commit is skipped *)
    split; simpl; rewrite ?Hnil, ?Hnone.
    + by left.
    + constructor.
    + intros T H. by apply not_elem_of_nil in H.
    + intros T c H. by apply not_elem_of_nil in H.
    + intros T H. by apply not_elem_of_nil in H.
    + intros el' i' _ (T & H & _). by apply not_elem_of_nil in H.
  - rewrite Hcs in *.
    replace (alter (pushCommit el) (length cs) (cs ++ [c]))
      with (cs ++ [pushCommit el c])
      by (by rewrite <- (Nat.add_0_r (length cs)), alter_app_r).
    assert (Hc : c ∈ cs ++ [c]) by (apply elem_of_app; right; by left).
    assert (Hcs_lt : ∀ T, T ∈ cs → (index T < index c)%nat).
    { rewrite fmap_app in Hsorted. apply StronglySorted_app in Hsorted as (Hs & _ & _).
      intros T HT. apply Hs; [by apply list_elem_of_fmap_2|by left]. }
    split; simpl.
    + right. by exists cs, (pushCommit el c).
    + by rewrite fmap_app in *.
    + intros T [HT | ->%list_elem_of_singleton]%elem_of_app.
      * destruct (Horigin T) as (c0 & Hc0 & HT0); [apply elem_of_app; by left|].
        exists c0. split; [apply elem_of_app; by left|done].
      * destruct (Horigin c Hc) as (c0 & Hc0 & HT0).
        exists c0. split; [apply elem_of_app; by left|].
        rewrite HT0 at 1. done.
    + intros T cm [HT | ->%list_elem_of_singleton]%elem_of_app Hcm.
      * destruct (Hbetween T cm) as (Hin & Hafter & Hnone); [apply elem_of_app; by left|done|].
        split; [apply elem_of_app; by left|]. split; [done|].
        intros T' [HT' | ->%list_elem_of_singleton]%elem_of_app.
        -- apply Hnone, elem_of_app. by left.
        -- by apply (Hnone c).
      * simpl in Hcm. apply elem_of_app in Hcm as [Hcm | ->%list_elem_of_singleton].
        -- destruct (Hbetween c cm Hc Hcm) as (Hin & Hafter & Hnone).
           split; [apply elem_of_app; by left|]. split; [done|].
           intros T' [HT' | ->%list_elem_of_singleton]%elem_of_app.
           ++ apply Hnone, elem_of_app. by left.
           ++ by apply (Hnone c).
        -- rewrite Hid. split; [apply elem_of_app; right; by left|].
           split; [exact (Hidx c Hc)|]. simpl.
           intros T' [HT' | ->%list_elem_of_singleton]%elem_of_app.
           ++ specialize (Hcs_lt T' HT'). lia.
           ++ simpl. lia.
    + intros T [HT | ->%list_elem_of_singleton]%elem_of_app.
      * apply Horder, elem_of_app. by left.
      * simpl. rewrite fmap_app. apply StronglySorted_app.
        split; [|split; [by apply Horder|repeat constructor]].
        intros x1 x2 (cm & -> & Hcm)%list_elem_of_fmap ->%list_elem_of_singleton.
        destruct (Hbetween c cm Hc Hcm) as (Hin & _ & _).
        rewrite Hid. by apply (Hlt _ Hin).
    + assert (Hkeep : ∀ el', (∃ T, T ∈ cs ++ [c] ∧ el' ∈ followingCommits T) →
                ∃ T, T ∈ cs ++ [pushCommit el c] ∧ el' ∈ followingCommits T).
      { intros el' (T & [HT | ->%list_elem_of_singleton]%elem_of_app & Hel).
        - exists T. split; [apply elem_of_app; by left|done].
        - exists (pushCommit el c). split; [apply elem_of_app; right; by left|].
          simpl. apply elem_of_app. by left. }
      intros el' i' [Hin | Heq%list_elem_of_singleton]%elem_of_app Hex.
      * apply Hkeep, (Hall el' i' Hin).
        destruct Hex as (T & [HT | ->%list_elem_of_singleton]%elem_of_app & Hi).
        -- exists T. split; [apply elem_of_app; by left|done].
        -- by exists c.
      * injection Heq as -> ->. exists (pushCommit el c).
        split; [apply elem_of_app; right; by left|].
        simpl. apply elem_of_app. right. by left.
Qed.

Lemma secondPass_grouped o :
  StronglySorted lt (itemIndex <$> o) → Forall tidy o →
  grouped o (secondPass o).
Proof.
  induction o as [|x o IH] using rev_ind; intros Hs Ht; [apply grouped_nil|].
  apply sorted_snoc_lt in Hs as [Hs Hlt].
  apply Forall_app in Ht as [Ht Hx%Forall_inv].
  rewrite secondPass_snoc. destruct x as [el i|c]; simpl in *.
  - by apply grouped_commit; [apply IH| |].
  - by apply grouped_comment; [apply IH| |].
Qed.

(** ** The sort *)

Lemma insertSorted_perm x l : insertSorted x l ≡ₚ x :: l.
Proof.
  induction l as [|y l IH]; simpl; [done|].
  destruct (sortsAfter x y); [|done].
  rewrite IH. apply Permutation_swap.
Qed.

Lemma sortComments_perm l : sortComments l ≡ₚ l.
Proof.
  induction l as [|x l IH]; simpl; [done|].
  by rewrite insertSorted_perm, IH.
Qed.

Lemma elem_of_sortComments T l : T ∈ sortComments l ↔ T ∈ l.
Proof. by rewrite sortComments_perm. Qed.

Lemma sortsAfter_valid a b ta tb :
  date a = Some ta → date b = Some tb → sortsAfter a b = (ta <? tb).
Proof.
  intros Ha Hb. unfold sortsAfter, compareFn. rewrite Ha, Hb. simpl.
  destruct (Z.ltb_spec 0 (tb - ta)), (Z.ltb_spec ta tb); done || lia.
Qed.

Lemma insertSorted_sorted x l :
  is_Some (date x) → Forall (λ y, is_Some (date y)) l →
  (∀ y, y ∈ l → (index x < index y)%nat) →
  StronglySorted goesBefore l → StronglySorted goesBefore (insertSorted x l).
Proof.
  intros [tx Hx] Hv Hidx Hs.
  induction Hs as [|y l Hs IH Hy]; simpl; [repeat constructor|].
  apply Forall_cons in Hv as [[ty Hty] Hv].
  rewrite (sortsAfter_valid x y tx ty) by done.
  destruct (Z.ltb_spec tx ty) as [Hlt|Hge].
  - constructor.
    + apply IH; [done|]. intros z Hz. apply Hidx. by right.
    + rewrite Forall_forall. intros z Hz.
      rewrite insertSorted_perm in Hz. apply elem_of_cons in Hz as [->|Hz].
      * unfold goesBefore. rewrite Hty, Hx. by left.
      * rewrite Forall_forall in Hy. by apply Hy.
  - assert (Hxy : goesBefore x y).
    { unfold goesBefore. rewrite Hx, Hty.
      assert (index x < index y)%nat by (apply Hidx; by left). lia. }
    constructor; [by constructor|].
    constructor; [done|].
    rewrite Forall_forall in Hy |- *. intros z Hz.
    specialize (Hy z Hz).
    assert (index x < index z)%nat by (apply Hidx; by right).
    unfold goesBefore in *. rewrite Hx. rewrite Hty in Hy.
    destruct (date z) as [tz|]; [lia|done].
Qed.

Lemma sortComments_sorted l :
  Forall (λ y, is_Some (date y)) l →
  StronglySorted lt (index <$> l) →
  StronglySorted goesBefore (sortComments l).
Proof.
  induction l as [|x l IH]; simpl; intros Hv Hs; [constructor|].
  apply Forall_cons in Hv as [Hx Hv].
  apply StronglySorted_inv in Hs as [Hs Hlt].
  apply insertSorted_sorted; [done| | |by apply IH].
  - rewrite Forall_forall in Hv |- *. intros y Hy.
    rewrite sortComments_perm in Hy. by apply Hv.
  - intros y Hy. rewrite sortComments_perm in Hy.
    rewrite Forall_forall in Hlt. apply Hlt.
    by apply list_elem_of_fmap_2.
Qed.

Lemma StronglySorted_lookup_2 {A} (R : relation A) l (i j : nat) a b :
  StronglySorted R l → (i < j)%nat → l !! i = Some a → l !! j = Some b → R a b.
Proof.
  intros Hs. revert i j. induction Hs as [|x l Hs IH Hx]; intros i j Hij Hi Hj; [done|].
  destruct j as [|j]; [lia|]. simpl in Hj. destruct i as [|i]; simpl in Hi.
  - injection Hi as ->. rewrite Forall_forall in Hx.
    by eapply Hx, list_elem_of_lookup_2.
  - apply (IH i j); [lia|done..].
Qed.

Lemma goesBefore_newestFirst l : StronglySorted goesBefore l → NewestFirst l.
Proof.
  intros Hs i j a b ta tb Hij Hi Hj Ha Hb.
  pose proof (StronglySorted_lookup_2 _ _ _ _ _ _ Hs Hij Hi Hj) as H.
  unfold goesBefore in H. rewrite Ha, Hb in H. lia.
Qed.

Lemma goesBefore_ties l : StronglySorted goesBefore l → TiesInPageOrder l.
Proof.
  intros Hs i j a b Hij Hi Hj Hab.
  pose proof (StronglySorted_lookup_2 _ _ _ _ _ _ Hs Hij Hi Hj) as H.
  unfold goesBefore in H. rewrite Hab in H. destruct (date b); [lia|done].
Qed.

(** With valid dates the result is the only arrangement that is newest
    first with ties in page order: the one of every stable sort. *)
Lemma sortComments_unique l l' :
  Forall (λ y, is_Some (date y)) l →
  StronglySorted lt (index <$> l) →
  l' ≡ₚ l → StronglySorted goesBefore l' → l' = sortComments l.
Proof.
  intros Hv Hs Hp Hs'.
  apply (StronglySorted_unique_strong goesBefore); [|done| |].
  - intros a b _ _ Hab Hba. unfold goesBefore in *.
    destruct (date a), (date b); try done. lia.
  - by apply sortComments_sorted.
  - by rewrite Hp, sortComments_perm.
Qed.

(** ** The Turn list *)

Section Turns.

Variable parseDate : jsstring -> Date.

Lemma fromPage_tidy items o : fromPage parseDate items o → tidy o.
Proof.
  destruct o as [el i|c]; simpl.
  - by intros (item & _ & _ & ->).
  - by intros (item & _ & _ & ->).
Qed.

Lemma orderedItems_grouped items :
  grouped (orderedItems parseDate items)
          (secondPass (orderedItems parseDate items)).
Proof.
  apply secondPass_grouped; [apply orderedItems_sorted|].
  eapply Forall_impl; [apply orderedItems_fromPage|]. apply fromPage_tidy.
Qed.

Lemma elem_of_turns T items :
  T ∈ turns parseDate items ↔ T ∈ (secondPass (orderedItems parseDate items)).1.
Proof. apply elem_of_sortComments. Qed.

Lemma secondPass_length o : length (secondPass o).1 = length (commentsOf o).
Proof.
  induction o as [|x o IH] using rev_ind; [done|].
  rewrite secondPass_snoc. unfold commentsOf in *. rewrite omap_app, length_app.
  destruct x as [el i|c]; simpl.
  - destruct (secondPass o).2; simpl; rewrite ?length_alter; lia.
  - rewrite length_app. simpl. lia.
Qed.

Lemma turns_length items :
  length (turns parseDate items) = distinct (contentKey <$> commentEntries items).
Proof.
  unfold turns. rewrite sortComments_perm, secondPass_length.
  apply orderedItems_comments_count.
Qed.

(** A Turn is the comment of the page at its index. *)
Lemma turn_origin items T :
  T ∈ turns parseDate items →
  ∃ item, items !! index T = Some item ∧ isCommentEntry item = true
          ∧ T = withCommits (mkComment parseDate item (index T)) (followingCommits T).
Proof.
  intros HT%elem_of_turns.
  destruct (grouped_origin _ _ (orderedItems_grouped items) T HT) as (c0 & Hc0 & HT0).
  pose proof (orderedItems_fromPage parseDate items) as HF.
  rewrite Forall_forall in HF. destruct (HF _ Hc0) as (item & Hi & He & Hc).
  exists item. rewrite HT0. simpl. by rewrite <- Hc.
Qed.

(** The Turns are the surviving comments, one for one. *)
Lemma secondPass_indices o :
  index <$> (secondPass o).1 = index <$> commentsOf o.
Proof.
  induction o as [|x o IH] using rev_ind; [done|].
  rewrite secondPass_snoc. unfold commentsOf in *. rewrite omap_app, fmap_app, <- IH.
  destruct x as [el i|c]; simpl.
  - rewrite app_nil_r. destruct (secondPass o).2 as [r|]; [|done]. simpl.
    rewrite (list_fmap_alter index (pushCommit el) id) by by apply Forall_true.
    apply list_alter_id. done.
  - by rewrite fmap_app.
Qed.

Lemma surviving_comment_is_turn items c0 :
  Comment c0 ∈ orderedItems parseDate items →
  ∃ T, T ∈ turns parseDate items ∧ index T = index c0.
Proof.
  intros Hin.
  assert (Hidx : index c0 ∈ index <$> (secondPass (orderedItems parseDate items)).1).
  { rewrite secondPass_indices. apply list_elem_of_fmap_2.
    unfold commentsOf. apply list_elem_of_omap. by exists (Comment c0). }
  apply list_elem_of_fmap in Hidx as (T & HT & Hin').
  exists T. by rewrite elem_of_turns.
Qed.

End Turns.

(** ** Commits and the Turn they follow *)

(** C2. Let [T] be a Turn of the Turn list.  [T] is the comment found at
    position [index T] of the page.  Every commit attached to [T] is the
    clone of a commit entry of the page, placed strictly after [T]'s comment
    and with no surviving comment between [T]'s comment and itself; the
    attached commits are in the order met on the page; and a commit entry
    that no surviving comment precedes is attached to no Turn. *)
Theorem commit_attachment parseDate items T :
  T ∈ turns parseDate items →
  (∃ item, items !! index T = Some item ∧ isCommentEntry item = true
           ∧ element T = cloneNode item (index T))
  ∧ (∀ c, c ∈ followingCommits T →
       (∃ item, items !! nodeId c = Some item ∧ isCommit item = true
                ∧ c = cloneNode item (nodeId c))
       ∧ (index T < nodeId c)%nat
       ∧ ∀ T', T' ∈ turns parseDate items →
               ¬ (index T < index T' < nodeId c)%nat)
  ∧ StronglySorted lt (nodeId <$> followingCommits T)
  ∧ ∀ j, (∀ T', T' ∈ turns parseDate items → ¬ (index T' < j)%nat) →
         ∀ c, c ∈ followingCommits T → nodeId c ≠ j.
Proof.
  intros HT.
  pose proof (orderedItems_grouped parseDate items) as G.
  pose proof (orderedItems_fromPage parseDate items) as HF.
  rewrite Forall_forall in HF.
  assert (HT' := HT). apply elem_of_turns in HT'.
  split; [|split; [|split]].
  - destruct (turn_origin parseDate items T HT) as (item & Hi & He & Heq).
    exists item. by rewrite Heq.
  - intros c Hc.
    destruct (grouped_between _ _ G T c HT' Hc) as (Hin & Hafter & Hnone).
    split; [exact (HF _ Hin)|]. split; [done|].
    intros T1 HT1%elem_of_turns. by apply Hnone.
  - by apply (grouped_order _ _ G).
  - intros j Hj c Hc Heq. subst j.
    destruct (grouped_between _ _ G T c HT' Hc) as (_ & Hafter & _).
    by apply (Hj T).
Qed.

Lemma commit_attachment_witness :
  (index Examples.aliceTurn < nodeId (cloneNode Examples.commit 2))%nat
  ∧ StronglySorted lt (nodeId <$> followingCommits Examples.aliceTurn).
Proof.
  destruct (commit_attachment DateParser.parse Examples.scenarioA Examples.aliceTurn)
    as (_ & H & Hs & _).
  - apply (list_elem_of_lookup_2 _ 1%nat). by vm_compute.
  - split; [|exact Hs].
    destruct (H (cloneNode Examples.commit 2)) as (_ & Hlt & _); [|exact Hlt].
    apply (list_elem_of_lookup_2 _ 0%nat). reflexivity.
Defined.

(** A commit entry that some surviving comment precedes is attached to a
    Turn. *)
Lemma commit_attached parseDate items i item :
  items !! i = Some item → isCommit item = true →
  (∃ T, T ∈ turns parseDate items ∧ (index T < i)%nat) →
  ∃ T, T ∈ turns parseDate items ∧ cloneNode item i ∈ followingCommits T.
Proof.
  intros Hi Hc (T & HT%elem_of_turns & Hlt).
  pose proof (orderedItems_grouped parseDate items) as G.
  destruct (grouped_all _ _ G (cloneNode item i) i) as (T1 & HT1 & Hin).
  - by apply orderedItems_commit_kept.
  - by exists T.
  - exists T1. by rewrite elem_of_turns.
Qed.

(** ** Deduplication *)

Lemma distinct_fmap_le {A B} `{EqDecision A, EqDecision B} (f : A → B) (l : list A) :
  (distinct (f <$> l) <= distinct l)%nat.
Proof.
  unfold distinct.
  rewrite <- (length_fmap f (remove_dups l)).
  apply submseteq_length, NoDup_submseteq; [apply NoDup_remove_dups|].
  intros y (x & -> & Hx)%elem_of_remove_dups%list_elem_of_fmap.
  apply list_elem_of_fmap_2. by apply elem_of_remove_dups.
Qed.

Lemma contentKey_joinKey item : contentKey item = joinKey (fingerprintTriple item).
Proof. reflexivity. Qed.

(** C3, as amended.  The Turns are as many as the distinct key strings
    [`${author}-${timeText}-${first 100 code units of the trimmed body}`] of
    the comment-entries; that number is at most the number of distinct
    triples and at most the number of comment-entries.  The commit nodes
    are the clones of all the commit entries of the page, each named by the
    index of its entry, and the surviving entries are in page order, each
    one the entry of the page at its index. *)
Theorem dedup_count parseDate items :
  length (turns parseDate items) = distinct (contentKey <$> commentEntries items)
  ∧ (length (turns parseDate items)
     <= distinct (fingerprintTriple <$> commentEntries items))%nat
  ∧ (length (turns parseDate items) <= length (commentEntries items))%nat
  ∧ content <$> commitsOf (orderedItems parseDate items) = commitEntries items
  ∧ commitsOf (orderedItems parseDate items)
    = omap (fun x => if isCommit x.2 then Some (cloneNode x.2 x.1) else None)
           (imap pair items)
  ∧ StronglySorted lt (itemIndex <$> orderedItems parseDate items)
  ∧ Forall (fromPage parseDate items) (orderedItems parseDate items).
Proof.
  rewrite turns_length.
  split; [done|]. split; [|split; [|split; [|split; [|split]]]].
  - change (contentKey <$> commentEntries items)
      with ((joinKey ∘ fingerprintTriple) <$> commentEntries items).
    rewrite list_fmap_compose. apply distinct_fmap_le.
  - rewrite <- (length_fmap contentKey (commentEntries items)). apply distinct_le.
  - apply orderedItems_commit_entries.
  - apply orderedItems_commits.
  - apply orderedItems_sorted.
  - apply orderedItems_fromPage.
Qed.

(** C3, counterexample.  Two comments with different authors and different
    timestamps: two distinct triples, yet one key string and one Turn. *)
Lemma dedup_count_triples_counterexample :
  length (turns DateParser.parse [Examples.hyphenLeft; Examples.hyphenRight])
  ≠ distinct (fingerprintTriple
                <$> commentEntries [Examples.hyphenLeft; Examples.hyphenRight]).
Proof. by vm_compute. Qed.

Example hyphen_keys_collide :
  fingerprintTriple Examples.hyphenLeft ≠ fingerprintTriple Examples.hyphenRight
  ∧ contentKey Examples.hyphenLeft = contentKey Examples.hyphenRight
  ∧ contentKey Examples.hyphenLeft = lit "a-b-c-d".
Proof. by vm_compute. Qed.

(** ** Order of the Turn list *)

Lemma turns_perm parseDate items :
  turns parseDate items ≡ₚ (secondPass (orderedItems parseDate items)).1.
Proof. apply sortComments_perm. Qed.

(** When every Turn has a valid date (its timestamp is absent, which gives
    the time value 0, or is parsed), the Turn list holds the Turns that were
    built, sorted by time value, newest first, and Turns with equal time
    values are in page order. *)
Theorem turns_newest_first parseDate items :
  Forall (λ T, is_Some (date T)) (turns parseDate items) →
  NewestFirst (turns parseDate items)
  ∧ TiesInPageOrder (turns parseDate items)
  ∧ turns parseDate items ≡ₚ (secondPass (orderedItems parseDate items)).1.
Proof.
  intros Hv.
  assert (Hs : StronglySorted goesBefore (turns parseDate items)).
  { apply sortComments_sorted.
    - rewrite Forall_forall in Hv |- *. intros T HT. by apply Hv, elem_of_turns.
    - apply (grouped_sorted _ _ (orderedItems_grouped parseDate items)). }
  split; [by apply goesBefore_newestFirst|].
  split; [by apply goesBefore_ties|apply turns_perm].
Qed.

Lemma turns_newest_first_witness :
  NewestFirst (turns DateParser.parse [Examples.alice; Examples.bob; Examples.carol])
  ∧ TiesInPageOrder (turns DateParser.parse [Examples.alice; Examples.bob; Examples.carol]).
Proof.
  destruct (turns_newest_first DateParser.parse
              [Examples.alice; Examples.bob; Examples.carol]) as (H1 & H2 & _).
  - vm_compute. repeat constructor; by eexists.
  - by split.
Defined.

Example tie_keeps_page_order :
  index <$> turns DateParser.parse [Examples.alice; Examples.bob; Examples.carol]
  = [2; 0; 1]%nat.
Proof. by vm_compute. Qed.

(** So it is whenever the date parser never gives NaN: the sort itself is
    newest first and stable. *)
Lemma turns_newest_first_total parseDate items :
  (∀ s, is_Some (parseDate s)) →
  NewestFirst (turns parseDate items) ∧ TiesInPageOrder (turns parseDate items).
Proof.
  intros Htotal.
  assert (Hv : Forall (λ T, is_Some (date T))
                 (secondPass (orderedItems parseDate items)).1).
  { apply Forall_forall. intros T HT.
    destruct (grouped_origin _ _ (orderedItems_grouped parseDate items) T HT)
      as (c0 & Hc0 & ->).
    pose proof (orderedItems_fromPage parseDate items) as HF.
    rewrite Forall_forall in HF. destruct (HF _ Hc0) as (item & _ & _ & ->).
    simpl. unfold dateOf. destruct (timeElement item); [apply Htotal|by eexists]. }
  assert (Hs : StronglySorted goesBefore (turns parseDate items)).
  { apply sortComments_sorted; [done|].
    apply (grouped_sorted _ _ (orderedItems_grouped parseDate items)). }
  split; [by apply goesBefore_newestFirst|by apply goesBefore_ties].
Qed.

(** C4, on a page with an unparsable timestamp between two valid ones.  The
    dates of the three Turns are January 15, the Invalid Date and January
    17.  Every comparison the sort makes involves the Invalid Date and gives
    NaN, so the three Turns stay in page order: the Turn list begins with
    the oldest Turn and ends with the newest, and is not sorted newest
    first. *)
Theorem invalid_date_breaks_order :
  (λ T, (index T, date T)) <$> turns DateParser.parse Examples.mixedDates
  = [(0%nat, Some 1705314600000); (1%nat, None); (2%nat, Some 1705487400000)]
  ∧ ¬ NewestFirst (turns DateParser.parse Examples.mixedDates).
Proof.
  split; [by vm_compute|]. intros H.
  assert (Hle : 1705487400000 <= 1705314600000); [|lia].
  by eapply (H 0%nat 2%nat); [lia|vm_compute; reflexivity..].
Qed.

(** ** Unparsable timestamps *)

Lemma unparsable_date parseDate item i :
  is_Some (timeElement item) → parseDate (timeTextOf item) = None →
  date (mkComment parseDate item i) = None.
Proof. intros [te Hte] Hp. simpl. unfold dateOf. by rewrite Hte. Qed.

(** Without a timestamp element the date is the time value 0, which is
    rendered as the empty string. *)
Lemma absent_timestamp_date parseDate item i :
  timeElement item = None → date (mkComment parseDate item i) = Some 0.
Proof. intros Hte. simpl. unfold dateOf. by rewrite Hte. Qed.

Lemma absent_timestamp_blank parseDate tza now item i :
  timeElement item = None →
  formatTimeAgo tza now (Some (date (mkComment parseDate item i))) = [].
Proof. intros Hte. by rewrite absent_timestamp_date. Qed.

(** With a timestamp element whose text is not parsed the date is the
    Invalid Date, which is rendered as "Invalid Date". *)
Lemma unparsable_timestamp_label parseDate tza now item i :
  is_Some (timeElement item) → parseDate (timeTextOf item) = None →
  formatTimeAgo tza now (Some (date (mkComment parseDate item i)))
  = lit "Invalid Date".
Proof. intros Hte Hp. by rewrite unparsable_date. Qed.

(** C1, on the page of Scenario D.  The timestamp "N/A" is present and is
    not parsed; the date of the Turn is the Invalid Date and not the time
    value 0; the Turn stays before the Turn with a valid timestamp, and its
    relative time is rendered as "Invalid Date". *)
Theorem unparsable_timestamp_scenario :
  is_Some (timeElement Examples.unparsable)
  ∧ DateParser.parse (timeTextOf Examples.unparsable) = None
  ∧ (λ T, (index T, date T)) <$> turns DateParser.parse Examples.scenarioD
    = [(0%nat, None); (1%nat, Some 1705314600000)]
  ∧ timeLabel <$> (renderTabs Examples.utc Examples.now
                     (turns DateParser.parse Examples.scenarioD)).1
    = [lit "Invalid Date"; lit "3d ago"].
Proof. split; [by eexists|]. by vm_compute. Qed.

(** ** Only commits *)

Lemma no_comment_entries_no_turns parseDate items :
  commentEntries items = [] → turns parseDate items = [].
Proof.
  intros He. apply length_zero_iff_nil. by rewrite turns_length, He.
Qed.

(** C8. When every entry of the page is a commit entry, the Turn list is
    empty, no tab button is made, and the content area holds the single
    panel "No comments yet". *)
Theorem only_commits_placeholder parseDate tza clock (p : Page) :
  Forall (λ item, isCommit item = true) (timeline p) →
  turns parseDate (timeline p) = []
  ∧ renderTabs tza clock (turns parseDate (timeline p))
    = ([], [NoComments (lit "No comments yet")])
  ∧ ∃ c, container (createSimplifiedView parseDate tza clock p) = Some c
         ∧ tabNav c = [] ∧ tabContent c = [NoComments (lit "No comments yet")].
Proof.
  intros Hc.
  assert (Hnil : turns parseDate (timeline p) = []).
  { apply no_comment_entries_no_turns. unfold commentEntries.
    induction Hc as [|item items Hi _ IH]; [done|].
    simpl. unfold isCommentEntry at 1. by rewrite Hi. }
  split; [done|]. unfold createSimplifiedView. simpl. rewrite Hnil.
  split; [done|]. by eexists.
Qed.

Lemma only_commits_placeholder_witness :
  turns DateParser.parse [Examples.commit; Examples.commitWithBody] = []
  ∧ renderTabs Examples.utc Examples.now
      (turns DateParser.parse [Examples.commit; Examples.commitWithBody])
    = ([], [NoComments (lit "No comments yet")]).
Proof.
  destruct (only_commits_placeholder DateParser.parse Examples.utc Examples.now
              (Examples.freshPage [Examples.commit; Examples.commitWithBody]))
    as (H1 & H2 & _).
  - by repeat constructor.
  - by split.
Defined.

(** ** Commit markers come first *)

(** C9. An entry that matches a commit marker is emitted as a commit entry,
    whatever body text it carries: the step adds its node to the ordered
    items and leaves the set of seen keys alone, the ordered items hold its
    node at its index and no comment object for that index, and no Turn
    starts at it. *)
Theorem commit_takes_precedence parseDate items i item :
  items !! i = Some item → isCommit item = true → hasTextContent item = true →
  (∀ st, collect parseDate item i st
         = (st.1, st.2 ++ [CommitItem (cloneNode item i) i]))
  ∧ CommitItem (cloneNode item i) i ∈ orderedItems parseDate items
  ∧ (∀ c, Comment c ∈ orderedItems parseDate items → index c ≠ i)
  ∧ (∀ T, T ∈ turns parseDate items → index T ≠ i).
Proof.
  intros Hi Hc _.
  assert (Hno : ∀ item', items !! i = Some item' → isCommentEntry item' = true → False).
  { intros item' Hi' He. rewrite Hi in Hi'. injection Hi' as <-.
    apply isCommentEntry_not_commit in He. congruence. }
  split; [intros st; by apply collect_commit|].
  split; [by apply orderedItems_commit_kept|]. split.
  - intros c Hin Heq. subst i.
    pose proof (orderedItems_fromPage parseDate items) as HF.
    rewrite Forall_forall in HF. destruct (HF _ Hin) as (item' & Hi' & He & _).
    by eapply Hno.
  - intros T HT Heq. subst i.
    destruct (turn_origin parseDate items T HT) as (item' & Hi' & He & _).
    by eapply Hno.
Qed.

Lemma commit_takes_precedence_witness :
  CommitItem (cloneNode Examples.commitWithBody 1) 1
    ∈ orderedItems DateParser.parse [Examples.alice; Examples.commitWithBody]
  ∧ index <$> turns DateParser.parse [Examples.alice; Examples.commitWithBody]
    = [0%nat].
Proof.
  destruct (commit_takes_precedence DateParser.parse
              [Examples.alice; Examples.commitWithBody] 1 Examples.commitWithBody)
    as (_ & H & _); [reflexivity..|].
  split; [exact H|reflexivity].
Defined.

(** ** String search *)

Lemma startsWith_spec (s p : jsstring) :
  startsWith s p = true ↔ ∃ rest, s = p ++ rest.
Proof.
  revert s. induction p as [|a p IH]; intros s; simpl.
  - split; [intros _; by exists s|by destruct s].
  - destruct s as [|b s]; simpl.
    + split; [done|]. by intros (rest & ?).
    + rewrite andb_true_iff, N.eqb_eq, IH. split.
      * intros (-> & rest & ->). by exists rest.
      * intros (rest & [= -> ->]). split; [done|by exists rest].
Qed.

Lemma includes_nil (p : jsstring) : includes [] p = startsWith [] p.
Proof. by destruct p. Qed.

Lemma includes_cons b (s p : jsstring) :
  includes (b :: s) p = startsWith (b :: s) p || includes s p.
Proof. by destruct p. Qed.

Lemma includes_spec (s p : jsstring) :
  includes s p = true ↔ ∃ pre post, s = pre ++ p ++ post.
Proof.
  induction s as [|b s IH].
  - rewrite includes_nil, startsWith_spec. split.
    + intros (rest & ->). by exists [], rest.
    + intros (pre & post & H). symmetry in H.
      apply app_eq_nil in H as [-> H]. exists post. by rewrite H.
  - rewrite includes_cons, orb_true_iff, startsWith_spec, IH. split.
    + intros [(rest & ->) | (pre & post & ->)].
      * by exists [], rest.
      * by exists (b :: pre), post.
    + intros (pre & post & H). destruct pre as [|c pre]; simpl in H.
      * left. by exists post.
      * injection H as -> ->. right. by exists pre, post.
Qed.

Lemma endsWith_spec (s p : jsstring) :
  endsWith s p = true ↔ ∃ pre, s = pre ++ p.
Proof.
  unfold endsWith. rewrite startsWith_spec. split.
  - intros (rest & H). exists (rev rest).
    apply (f_equal (@rev N)) in H. by rewrite rev_involutive, rev_app_distr, rev_involutive in H.
  - intros (pre & ->). exists (rev pre). by rewrite rev_app_distr.
Qed.

(** ** The agent signature *)

Lemma includes_nonempty (s p : jsstring) :
  includes s p = true → p ≠ [] → s ≠ [].
Proof. intros H Hp ->. destruct p; [done|]. simpl in H. done. Qed.

Lemma isBotComment_author item :
  isBotComment item = true →
  ∃ a, authorOf item = Some a ∧ a ≠ [] ∧ pageAuthor item = a.
Proof.
  unfold isBotComment, pageAuthor. destruct (authorOf item) as [a|]; [|done].
  intros H. exists a. split; [done|].
  assert (Ha : a ≠ []).
  { apply orb_prop in H as [H|H]; by eapply includes_nonempty. }
  split; [done|]. simpl. by destruct a.
Qed.

(** C5, as amended.  The signature signal of the script fires exactly when
    the trimmed body text ends with "agenthelper", or contains the robot
    emoji followed by " agenthelper", or the HTML of the [.comment-body]
    element contains "agenthelper".  When it fires, the comment is automated
    and its author is displayed as "agenthelper" whatever the page reports;
    a body text that contains the robot emoji followed by " agenthelper"
    always fires it.  When it does not fire and the author name contains
    "bot", the comment is automated and the author displayed is the one of
    the page. *)
Theorem agenthelper_override parseDate item i :
  (isFromAgenthelper item = true
   ↔ (∃ pre, bodyTextOf item = pre ++ lit "agenthelper")
     ∨ (∃ pre post, bodyTextOf item = pre ++ (robot ++ lit " agenthelper") ++ post)
     ∨ (∃ html pre post, commentBodyHTML item = Some html
                         ∧ html = pre ++ lit "agenthelper" ++ post))
  ∧ ((∃ pre, bodyTextOf item = pre ++ lit "agenthelper")
     ∨ (∃ pre post, bodyTextOf item = pre ++ (robot ++ lit " agenthelper") ++ post)
     ∨ (∃ html pre post, commentBodyHTML item = Some html
                         ∧ html = pre ++ lit "agenthelper" ++ post) →
     isBot (mkComment parseDate item i) = true
     ∧ author (mkComment parseDate item i) = lit "agenthelper")
  ∧ (isFromAgenthelper item = true →
     isBot (mkComment parseDate item i) = true
     ∧ author (mkComment parseDate item i) = lit "agenthelper")
  ∧ (includes (bodyTextOf item) (robot ++ lit " agenthelper") = true →
     isFromAgenthelper item = true)
  ∧ (isFromAgenthelper item = false → isBotComment item = true →
     isBot (mkComment parseDate item i) = true
     ∧ ∃ a, authorOf item = Some a
            ∧ author (mkComment parseDate item i) = a).
Proof.
  assert (Hfires : isFromAgenthelper item = true
   ↔ (∃ pre, bodyTextOf item = pre ++ lit "agenthelper")
     ∨ (∃ pre post, bodyTextOf item = pre ++ (robot ++ lit " agenthelper") ++ post)
     ∨ (∃ html pre post, commentBodyHTML item = Some html
                         ∧ html = pre ++ lit "agenthelper" ++ post)).
  { unfold isFromAgenthelper.
    rewrite !orb_true_iff, endsWith_spec, includes_spec.
    assert (Hhtml : match commentBodyHTML item with
                    | None => false
                    | Some html => includes html (lit "agenthelper")
                    end = true
              ↔ ∃ html pre post, commentBodyHTML item = Some html
                                 ∧ html = pre ++ lit "agenthelper" ++ post).
    { destruct (commentBodyHTML item) as [html|].
      - rewrite includes_spec. split.
        + intros (pre & post & ->). by eexists _, pre, post.
        + intros (html' & pre & post & [= <-] & ->). by exists pre, post.
      - split; [done|]. by intros (html' & pre & post & ? & _). }
    rewrite Hhtml. tauto. }
  assert (Hshown : isFromAgenthelper item = true →
     isBot (mkComment parseDate item i) = true
     ∧ author (mkComment parseDate item i) = lit "agenthelper").
  { intros H. simpl. unfold displayAuthor. rewrite H.
    split; [apply orb_true_r|done]. }
  split; [exact Hfires|]. split; [intros H; by apply Hshown, Hfires|].
  split; [exact Hshown|]. split.
  - intros H. unfold isFromAgenthelper. rewrite H. by rewrite orb_true_r.
  - intros Hn Hb. simpl. unfold displayAuthor. rewrite Hn, Hb. split; [done|].
    destruct (isBotComment_author item Hb) as (a & Ha & _ & Hp).
    exists a. split; [done|]. exact Hp.
Qed.

Lemma agenthelper_override_witness :
  (isBot (mkComment DateParser.parse Examples.agent 5) = true
   ∧ author (mkComment DateParser.parse Examples.agent 5) = lit "agenthelper")
  ∧ (isBot (mkComment DateParser.parse Examples.botMention 0) = true
     ∧ author (mkComment DateParser.parse Examples.botMention 0) = lit "agenthelper")
  ∧ (isBot (mkComment DateParser.parse Examples.htmlMention 0) = true
     ∧ author (mkComment DateParser.parse Examples.htmlMention 0) = lit "agenthelper")
  ∧ (isBot (mkComment DateParser.parse Examples.plainBot 0) = true
     ∧ ∃ a, authorOf Examples.plainBot = Some a
            ∧ author (mkComment DateParser.parse Examples.plainBot 0) = a).
Proof.
  split; [|split; [|split]].
  - destruct (agenthelper_override DateParser.parse Examples.agent 5)
      as (_ & _ & H & _).
    apply H. reflexivity.
  - destruct (agenthelper_override DateParser.parse Examples.botMention 0)
      as (_ & H & _).
    apply H. left. by exists (lit "cc ").
  - destruct (agenthelper_override DateParser.parse Examples.htmlMention 0)
      as (_ & H & _).
    apply H. right. right.
    by exists (lit "<p>see the <a href=/dave/agenthelper>helper</a></p>"),
      (lit "<p>see the <a href=/dave/"), (lit ">helper</a></p>").
  - destruct (agenthelper_override DateParser.parse Examples.plainBot 0)
      as (_ & _ & _ & _ & H).
    apply H; reflexivity.
Defined.

(** C5, counterexample.  A body text that holds the marker with its
    asterisks, in a [.markdown-body] without [.comment-body], is not taken
    for automated; and a comment by a bot whose body only ends with the word
    "agenthelper" holds no member of the marker family and has its author
    replaced. *)
Lemma marker_family_counterexample :
  ¬ signatureClaim DateParser.parse Examples.literalMarker
  ∧ ¬ signatureClaim DateParser.parse Examples.botMention.
Proof.
  split.
  - intros [H _]. destruct H as [H _]; [reflexivity|]. vm_compute in H. discriminate.
  - intros [_ H]. destruct H as [_ H]; [reflexivity..|]. vm_compute in H. discriminate.
Qed.

Example botMention_display :
  bodyHasMarker Examples.botMention = false
  ∧ isBotComment Examples.botMention = true
  ∧ author (mkComment DateParser.parse Examples.botMention 0) = lit "agenthelper"
  ∧ pageAuthor Examples.botMention = lit "dependabot[bot]".
Proof. by vm_compute. Qed.

Example literalMarker_display :
  bodyHasMarker Examples.literalMarker = true
  ∧ isBot (mkComment DateParser.parse Examples.literalMarker 0) = false
  ∧ author (mkComment DateParser.parse Examples.literalMarker 0) = lit "alice".
Proof. by vm_compute. Qed.

(** ** The key reads the raw author *)

Lemma orderedItems_pair parseDate a b :
  isCommentEntry a = true → isCommentEntry b = true →
  orderedItems parseDate [a; b]
  = if decide (contentKey a = contentKey b)
    then [Comment (mkComment parseDate a 0)]
    else [Comment (mkComment parseDate a 0); Comment (mkComment parseDate b 1)].
Proof.
  intros Ha Hb. unfold orderedItems, firstPass. simpl.
  rewrite (collect_comment _ a) by done. simpl.
  rewrite decide_False by apply not_elem_of_empty.
  rewrite (collect_comment _ b) by done. simpl.
  destruct (decide (contentKey a = contentKey b)) as [Heq|Hne].
  - rewrite decide_True; [done|]. rewrite Heq. apply elem_of_union_l.
    by apply elem_of_singleton.
  - rewrite decide_False; [done|].
    rewrite (right_id_L ∅ (∪)), elem_of_singleton. congruence.
Qed.

Lemma contentKey_author_differs a b :
  timeTextOf a = timeTextOf b → bodyElement a = bodyElement b →
  interp (authorOf a) ≠ interp (authorOf b) → contentKey a ≠ contentKey b.
Proof.
  unfold contentKey. intros -> -> Hne Heq. by apply app_inv_tail in Heq.
Qed.

(** C10, as amended.  On a page of two comment-entries [a] and [b] the
    second one is discarded exactly when its key string equals the key of
    the first; the key is built from the raw author and the display name is
    not read.  When the two have the same timestamp text and the same body
    and their raw authors differ as they are written into the key (a missing
    author is written "undefined"), both are kept, in page order, also when
    the signature makes both display "agenthelper". *)
Theorem dedup_reads_raw_author parseDate a b :
  isCommentEntry a = true → isCommentEntry b = true →
  (turns parseDate [a; b]
   = if decide (contentKey a = contentKey b)
     then [mkComment parseDate a 0]
     else sortComments [mkComment parseDate a 0; mkComment parseDate b 1])
  ∧ (timeTextOf a = timeTextOf b → bodyElement a = bodyElement b →
     interp (authorOf a) ≠ interp (authorOf b) →
     length (turns parseDate [a; b]) = 2%nat
     ∧ (isFromAgenthelper a = true → isFromAgenthelper b = true →
        Forall (λ T, author T = lit "agenthelper") (turns parseDate [a; b]))).
Proof.
  intros Ha Hb.
  assert (Hturns : turns parseDate [a; b]
   = if decide (contentKey a = contentKey b)
     then [mkComment parseDate a 0]
     else sortComments [mkComment parseDate a 0; mkComment parseDate b 1]).
  { unfold turns. rewrite orderedItems_pair by done. by case_decide. }
  split; [done|]. intros Ht Hbody Hne.
  rewrite Hturns, decide_False by by apply contentKey_author_differs.
  split; [by rewrite sortComments_perm|].
  intros Hsa Hsb. rewrite Forall_forall. intros T HT.
  rewrite elem_of_sortComments in HT.
  apply elem_of_cons in HT as [->|HT]; [|apply list_elem_of_singleton in HT as ->];
    simpl; unfold displayAuthor; by rewrite ?Hsa, ?Hsb.
Qed.

Lemma dedup_reads_raw_author_witness :
  length (turns DateParser.parse [Examples.signedAlice; Examples.signedBob]) = 2%nat
  ∧ Forall (λ T, author T = lit "agenthelper")
      (turns DateParser.parse [Examples.signedAlice; Examples.signedBob]).
Proof.
  destruct (dedup_reads_raw_author DateParser.parse
              Examples.signedAlice Examples.signedBob) as [_ H]; [reflexivity..|].
  destruct H as [H1 H2]; [reflexivity|reflexivity|by vm_compute|].
  split; [exact H1|]. by apply H2.
Defined.

(** C10, counterexample.  The same signed comment rendered once without an
    author element and once for the user named "undefined": the raw author
    fields differ, the keys are the same string, and one Turn is kept. *)
Lemma dedup_raw_author_counterexample :
  ¬ (∀ a b, isCommentEntry a = true → isCommentEntry b = true →
       timeTextOf a = timeTextOf b → bodyElement a = bodyElement b →
       authorOf a ≠ authorOf b →
       length (turns DateParser.parse [a; b]) = 2%nat).
Proof.
  intros H.
  specialize (H Examples.signedNoAuthor Examples.signedUndefined).
  vm_compute in H. by specialize (H eq_refl eq_refl eq_refl eq_refl ltac:(discriminate)).
Qed.

Example undefined_author_key :
  authorOf Examples.signedNoAuthor = None
  ∧ authorOf Examples.signedUndefined = Some (lit "undefined")
  ∧ contentKey Examples.signedNoAuthor = contentKey Examples.signedUndefined
  ∧ index <$> turns DateParser.parse [Examples.signedNoAuthor; Examples.signedUndefined]
    = [0%nat].
Proof. by vm_compute. Qed.

(** ** The view toggle *)

Section Toggle.

Variable parseDate : jsstring -> Date.
Variable tza : Z -> Z.
Variable clock : nat -> Z.

Lemma reached_consistent p : reached parseDate tza clock p → viewConsistent p.
Proof.
  induction 1 as [p Hc | p p' Hr IH Ht | p i Hr IH | p Hr IH].
  - eexists. split; [reflexivity|]. by simpl.
  - destruct IH as (c & Hc & Hv). unfold toggleView in Ht. rewrite Hc in Ht.
    destruct (isSimplified p); injection Ht as <-; (eexists; split; [reflexivity|by simpl]).
  - destruct IH as (c & Hc & Hv). unfold viewConsistent, switchTab. simpl.
    rewrite Hc. simpl. eexists. split; [reflexivity|]. by simpl.
  - destruct IH as (c & Hc & Hv). unfold simplifyPR. rewrite Hc. by exists c.
Qed.

(** One click changes the two [display] styles, the label and the flag, and
    a second click puts them back. *)
Lemma toggleView_back p :
  viewConsistent p →
  ∃ q, toggleView p = Some q ∧ toggleView q = Some p
       ∧ isSimplified q = negb (isSimplified p)
       ∧ timeline q = timeline p ∧ hiddenFlag q = hiddenFlag p
       ∧ originalState q = originalState p
       ∧ tabNav <$> container q = tabNav <$> container p
       ∧ tabContent <$> container q = tabContent <$> container p.
Proof.
  intros (c & Hc & Hv). destruct p as [tl dd hf co s os], c as [lbl td nav cont].
  simpl in *. subst co. unfold toggleView. simpl.
  destruct s; destruct Hv as (-> & -> & ->); eexists; (split; [reflexivity|]); by simpl.
Qed.

Lemma toggleTimes_even p n :
  viewConsistent p → toggleTimes (2 * n) p = Some p.
Proof.
  intros Hv. induction n as [|n IH]; [done|].
  replace (2 * S n)%nat with (S (S (2 * n))) by lia. simpl.
  destruct (toggleView_back p Hv) as (q & -> & Hq & _). simpl.
  rewrite Hq. simpl. exact IH.
Qed.

(** C7. Let [p] be a page reached after a reconstruction, in the simplified
    view.  The click that shows the original view succeeds and makes the
    discussion visible; it leaves the timeline items of the discussion, its
    data attribute, the saved state, the tab buttons and the panels, with
    their active flags, as they were.  The next click gives back [p] itself:
    the discussion is hidden and the tabs are shown as before.  So does any
    even number of clicks. *)
Theorem toggle_round_trip p :
  reached parseDate tza clock p → isSimplified p = true →
  ∃ q, toggleView p = Some q
       ∧ isSimplified q = false ∧ discussionDisplay q = []
       ∧ timeline q = timeline p ∧ hiddenFlag q = hiddenFlag p
       ∧ originalState q = originalState p
       ∧ tabNav <$> container q = tabNav <$> container p
       ∧ tabContent <$> container q = tabContent <$> container p
       ∧ toggleView q = Some p
       ∧ ∀ n, toggleTimes (2 * n) p = Some p.
Proof.
  intros Hr Hs. pose proof (reached_consistent p Hr) as Hv.
  destruct (toggleView_back p Hv) as (q & Hq & Hback & Hflag & Htl & Hhf & Hos & Hnav & Hcont).
  exists q. rewrite Hs in Hflag.
  assert (Hd : discussionDisplay q = []).
  { destruct Hv as (c & Hc & _). unfold toggleView in Hq. rewrite Hc, Hs in Hq.
    by injection Hq as <-. }
  repeat (split; [done|]). intros n. by apply toggleTimes_even.
Qed.

End Toggle.

Lemma toggle_round_trip_witness :
  let p := createSimplifiedView DateParser.parse Examples.utc Examples.now
             (Examples.freshPage Examples.scenarioA) in
  ∃ q, toggleView p = Some q ∧ discussionDisplay q = [] ∧ toggleView q = Some p.
Proof.
  intros p.
  destruct (toggle_round_trip DateParser.parse Examples.utc Examples.now p)
    as (q & H1 & _ & H2 & _ & _ & _ & _ & _ & H3 & _).
  - by apply reached_reconstruct.
  - reflexivity.
  - by exists q.
Defined.

Example scenarioA_tabs :
  (λ b, (authorLabel b, authorIsBot b, btnActive b, timeLabel b))
    <$> (renderTabs Examples.utc Examples.now
           (turns DateParser.parse Examples.scenarioA)).1
  = [(lit "agenthelper", true, true, lit "2d ago");
     (lit "alice", false, false, lit "3d ago")]
  ∧ (λ T, (index T, nodeId <$> followingCommits T))
      <$> turns DateParser.parse Examples.scenarioA
    = [(5%nat, []); (1%nat, [2%nat; 4%nat])].
Proof. by vm_compute. Qed.

(** * Further properties *)

(** ** The path of the page *)

Lemma skipDigits_split (s : jsstring) :
  ∃ ds, s = ds ++ skipDigits s ∧ Forall (λ c, isDigit c = true) ds.
Proof.
  induction s as [|c s (ds & Hs & Hd)]; simpl.
  - by exists [].
  - destruct (isDigit c) eqn:Hc.
    + exists (c :: ds). split; [simpl; by rewrite <- Hs|by constructor].
    + by exists [].
Qed.

Lemma skipDigits_digits (ds rest : jsstring) :
  Forall (λ c, isDigit c = true) ds → skipDigits (ds ++ rest) = skipDigits rest.
Proof. induction 1 as [|c ds Hc _ IH]; simpl; [done|]. by rewrite Hc. Qed.

Lemma digitsToEnd_spec (slash : bool) (s : jsstring) :
  digitsToEnd slash s = true
  ↔ ∃ ds, ds ≠ [] ∧ Forall (λ c, isDigit c = true) ds
          ∧ (s = ds ∨ slash = true ∧ s = ds ++ lit "/").
Proof.
  split.
  - destruct s as [|c s]; simpl; [done|].
    intros [Hc H]%andb_prop.
    destruct (skipDigits_split s) as (ds & Hs & Hd).
    destruct (skipDigits s) as [|d [|e r]]; [| |done].
    + exists (c :: ds). rewrite app_nil_r in Hs. subst s.
      split; [done|]. split; [by constructor|by left].
    + apply andb_prop in H as [Hsl ->%N.eqb_eq].
      exists (c :: ds). split; [done|]. split; [by constructor|].
      right. split; [done|]. simpl. by rewrite Hs.
  - intros (ds & Hne & Hd & H). destruct ds as [|c ds]; [done|].
    apply Forall_cons in Hd as [Hc Hd].
    destruct H as [->|[-> ->]]; simpl; rewrite Hc; simpl.
    + rewrite <- (app_nil_r ds), skipDigits_digits by done. done.
    + rewrite skipDigits_digits by done. done.
Qed.

Lemma matchPull_spec (slash : bool) (s : jsstring) :
  matchPull slash s = true
  ↔ ∃ pre ds, ds ≠ [] ∧ Forall (λ c, isDigit c = true) ds
              ∧ (s = pre ++ lit "/pull/" ++ ds
                 ∨ slash = true ∧ s = pre ++ lit "/pull/" ++ ds ++ lit "/").
Proof.
  assert (Hhere : ∀ t, startsWith t (lit "/pull/") && digitsToEnd slash (drop 6 t) = true
    ↔ ∃ ds, ds ≠ [] ∧ Forall (λ c, isDigit c = true) ds
            ∧ (t = lit "/pull/" ++ ds ∨ slash = true ∧ t = lit "/pull/" ++ ds ++ lit "/")).
  { intros t. rewrite andb_true_iff, startsWith_spec. split.
    - intros ((rest & ->) & H). change (drop 6 (lit "/pull/" ++ rest)) with rest in H.
      apply digitsToEnd_spec in H as (ds & Hne & Hd & H). exists ds.
      split; [done|]. split; [done|]. destruct H as [->|[-> ->]]; [by left|by right].
    - intros (ds & Hne & Hd & H). split.
      + destruct H as [->|[_ ->]]; by eexists.
      + assert (drop 6 t = ds ∨ slash = true ∧ drop 6 t = ds ++ lit "/") as H'
          by (destruct H as [->|[-> ->]]; [by left|by right]).
        apply digitsToEnd_spec. by exists ds. }
  induction s as [|b s IH].
  - simpl. split; [done|].
    intros (pre & ds & _ & _ & [H|[_ H]]); symmetry in H;
      apply app_eq_nil in H as [_ H]; done.
  - change (matchPull slash (b :: s))
      with (startsWith (b :: s) (lit "/pull/") && digitsToEnd slash (drop 6 (b :: s))
            || matchPull slash s).
    rewrite orb_true_iff, Hhere, IH. split.
    + intros [(ds & Hne & Hd & H) | (pre & ds & Hne & Hd & H)].
      * exists [], ds. done.
      * exists (b :: pre), ds. split; [done|]. split; [done|].
        destruct H as [->|[-> ->]]; [by left|by right].
    + intros (pre & ds & Hne & Hd & H). destruct pre as [|c pre].
      * left. exists ds. done.
      * right. exists pre, ds. split; [done|]. split; [done|].
        destruct H as [H|[Hs H]]; injection H as -> ->; [by left|by right].
Qed.

Lemma scriptRuns_matchPull (path : jsstring) :
  scriptRuns path = matchPull true path.
Proof.
  unfold scriptRuns. destruct (matchPull false path) eqn:H1; simpl.
  - symmetry. apply matchPull_spec.
    apply matchPull_spec in H1 as (pre & ds & Hne & Hd & [->|[? _]]); [|done].
    exists pre, ds. split; [done|]. split; [done|]. by left.
  - by destruct (matchPull true path).
Qed.

(** X1. The script goes on to [init] exactly on the paths that end with
    "/pull/", one or more digits and at most one "/": the first test of the
    guard adds nothing to the second, which is also the test of
    [simplifyPR]. *)
Theorem scriptRuns_paths (path : jsstring) :
  scriptRuns path = matchPull true path
  ∧ (scriptRuns path = true
     ↔ ∃ pre ds, ds ≠ [] ∧ Forall (λ c, isDigit c = true) ds
                 ∧ (path = pre ++ lit "/pull/" ++ ds
                    ∨ path = pre ++ lit "/pull/" ++ ds ++ lit "/")).
Proof.
  split; [apply scriptRuns_matchPull|].
  rewrite scriptRuns_matchPull, matchPull_spec.
  split; intros (pre & ds & Hne & Hd & H); exists pre, ds;
    (split; [done|]; split; [done|]); destruct H as [->|H]; try (by left).
  - right. by destruct H.
  - by right.
Qed.

(** X2. On a path that goes on after the number of the pull request, such
    as ".../pull/123/files", the script does nothing: a path whose last code
    unit is neither a digit nor "/" is not matched. *)
Theorem scriptRuns_subpage (path : jsstring) (c : N) :
  isDigit c = false → c ≠ 47%N → scriptRuns (path ++ [c]) = false.
Proof.
  intros Hc Hs. apply not_true_is_false. rewrite scriptRuns_matchPull, matchPull_spec.
  intros (pre & ds & Hne & Hd & H).
  destruct ds as [|y ds _] using rev_ind; [done|].
  apply Forall_app in Hd as [_ Hy%Forall_inv].
  destruct H as [H|[_ H]].
  - rewrite !app_assoc in H. apply app_inj_tail in H as [_ ->]. congruence.
  - change (lit "/") with [47%N] in H. rewrite !app_assoc in H.
    apply app_inj_tail in H as [_ ->]. done.
Qed.

Lemma scriptRuns_subpage_witness :
  scriptRuns Cases.filesPath = false.
Proof.
  apply (scriptRuns_subpage (lit "/davefowler/asql/pull/123/file") 115%N);
    [reflexivity|discriminate].
Defined.

Example scriptRuns_cases :
  scriptRuns Cases.prPath = true
  ∧ scriptRuns (Cases.prPath ++ lit "/") = true
  ∧ scriptRuns (Cases.prPath ++ lit "//") = false
  ∧ scriptRuns (lit "/davefowler/asql/pull/") = false
  ∧ scriptRuns (lit "/davefowler/asql/pull/12a") = false
  ∧ scriptRuns (lit "/davefowler/asql/pulls") = false.
Proof. by vm_compute. Qed.

(** ** [simplifyPR] on a document *)

Section SimplifyPR.

Variable parseDate : jsstring -> Date.
Variable tza : Z -> Z.
Variable clock : nat -> Z.

Lemma simplifyPR_container p :
  ∃ c, container (simplifyPR parseDate tza clock p) = Some c.
Proof.
  unfold simplifyPR. destruct (container p) as [c|] eqn:Hc; [by exists c|].
  by eexists.
Qed.

Lemma simplifyPR_again p :
  simplifyPR parseDate tza clock (simplifyPR parseDate tza clock p)
  = simplifyPR parseDate tza clock p.
Proof.
  destruct (simplifyPR_container p) as (c & Hc).
  unfold simplifyPR at 1. by rewrite Hc.
Qed.

(** X3. A call of [simplifyPR] changes the document only when the path is
    the one of a pull request, the discussion is there and no simplified
    container exists; then it builds the simplified view over the same
    timeline.  On another path it does nothing; on a matching path without
    the discussion it leaves the document as it is, and asks for a retry
    when no container exists.  After a call on a matching path with a
    discussion the container exists, and a further call changes nothing:
    the container is never built twice. *)
Theorem simplifyPRDoc_guard (doc : Document) :
  simplifyPRDoc parseDate tza clock (simplifyPRDoc parseDate tza clock doc).1
  = simplifyPRDoc parseDate tza clock doc
  ∧ (matchPull true (pathname doc) = false →
     simplifyPRDoc parseDate tza clock doc = (doc, false))
  ∧ (∀ p, matchPull true (pathname doc) = true → dom doc = Discussion p →
       ∃ p' c, simplifyPRDoc parseDate tza clock doc
               = ({| pathname := pathname doc; dom := Discussion p' |}, false)
               ∧ container p' = Some c ∧ timeline p' = timeline p
               ∧ (container p = None →
                  p' = createSimplifiedView parseDate tza clock p)
               ∧ (is_Some (container p) → p' = p))
  ∧ (∀ h, matchPull true (pathname doc) = true → dom doc = NoDiscussion h →
       simplifyPRDoc parseDate tza clock doc = (doc, negb h))
  ∧ ((simplifyPRDoc parseDate tza clock doc).1 ≠ doc →
     matchPull true (pathname doc) = true
     ∧ ∃ p, dom doc = Discussion p ∧ container p = None
            ∧ (simplifyPRDoc parseDate tza clock doc).1
              = {| pathname := pathname doc;
                   dom := Discussion (createSimplifiedView parseDate tza clock p) |}).
Proof.
  split; [|split; [|split; [|split]]].
  - unfold simplifyPRDoc. destruct (matchPull true (pathname doc)) eqn:Hm; simpl.
    + destruct (dom doc) as [[|]|p] eqn:Hd; simpl; rewrite ?Hm, ?Hd; simpl; try done.
      by rewrite simplifyPR_again.
    + by rewrite Hm.
  - intros Hm. unfold simplifyPRDoc. by rewrite Hm.
  - intros p Hm Hd. unfold simplifyPRDoc. rewrite Hm, Hd. simpl.
    destruct (simplifyPR_container p) as (c & Hc).
    exists (simplifyPR parseDate tza clock p), c.
    split; [done|]. split; [done|]. unfold simplifyPR.
    destruct (container p) as [c0|]; (split; [done|]); split; try done;
      by intros [? ?].
  - intros h Hm Hd. unfold simplifyPRDoc. rewrite Hm, Hd. simpl. by destruct h.
  - destruct doc as [path d]. unfold simplifyPRDoc. simpl.
    destruct (matchPull true path) eqn:Hm; simpl; [|done].
    destruct d as [[|]|p]; simpl; try done.
    unfold simplifyPR. destruct (container p) as [c0|] eqn:Hc; [done|].
    intros _. split; [done|]. by exists p.
Qed.

(** X4. While the discussion is missing on a pull-request path (and no
    container is there), every call of [simplifyPR] leaves the document as
    it is and asks for the next call: the retry goes on for as long as the
    discussion stays away.  In every other case the first call is the last
    one. *)
Theorem retries_forever (doc : Document) :
  (matchPull true (pathname doc) = true → dom doc = NoDiscussion false →
   ∀ n, retries parseDate tza clock n doc = (doc, true))
  ∧ (matchPull true (pathname doc) = false ∨ dom doc ≠ NoDiscussion false →
     ∀ n, retries parseDate tza clock (S n) doc
          = ((simplifyPRDoc parseDate tza clock doc).1, false)).
Proof.
  split.
  - intros Hm Hd n. induction n as [|n IH]; [done|].
    simpl. unfold simplifyPRDoc. rewrite Hm, Hd. simpl. exact IH.
  - intros H n. simpl. unfold simplifyPRDoc.
    destruct (matchPull true (pathname doc)); simpl; [|done].
    destruct H as [H|H]; [done|].
    by destruct (dom doc) as [[|]|p].
Qed.

End SimplifyPR.

Lemma simplifyPRDoc_guard_witness :
  ∃ p' c, (simplifyPRDoc DateParser.parse Examples.utc Examples.now Cases.loaded).1
          = {| pathname := Cases.prPath; dom := Discussion p' |}
          ∧ container p' = Some c ∧ timeline p' = Examples.scenarioA.
Proof.
  destruct (simplifyPRDoc_guard DateParser.parse Examples.utc Examples.now Cases.loaded)
    as (_ & _ & H & _).
  destruct (H (Examples.freshPage Examples.scenarioA)) as (p' & c & H1 & H2 & H3 & _);
    [reflexivity|reflexivity|].
  exists p', c. by rewrite H1.
Defined.

Lemma retries_forever_witness :
  retries DateParser.parse Examples.utc Examples.now 1000 Cases.waiting
  = (Cases.waiting, true).
Proof.
  destruct (retries_forever DateParser.parse Examples.utc Examples.now Cases.waiting)
    as [H _].
  apply H; reflexivity.
Defined.

(** ** The tab strip *)

Section Tabs.

Variable tza : Z -> Z.
Variable clock : nat -> Z.

Lemma forEachFrom_buildTab (l : list CommentItem) (i : nat) (d : TabsDom) :
  forEachFrom (buildTab tza clock) l i d
  = (d.1 ++ imap (λ k c, mkTabBtn tza clock c (i + k)) l,
     d.2 ++ imap (λ k c, Panel (mkTabPanel c (i + k))) l).
Proof.
  revert i d. induction l as [|c l IH]; intros i d; simpl.
  - rewrite !app_nil_r. by destruct d.
  - rewrite IH. simpl. rewrite <- !app_assoc, Nat.add_0_r. simpl.
    f_equal; f_equal; f_equal; apply imap_ext; intros k x _; simpl;
      repeat f_equal; lia.
Qed.

Lemma renderTabs_nav (ts : list CommentItem) :
  (renderTabs tza clock ts).1 = imap (λ k c, mkTabBtn tza clock c k) ts.
Proof.
  unfold renderTabs. rewrite forEachFrom_buildTab.
  by destruct (length ts =? 0)%nat.
Qed.

Lemma renderTabs_content (ts : list CommentItem) :
  (renderTabs tza clock ts).2
  = if decide (ts = []) then [NoComments (lit "No comments yet")]
    else imap (λ k c, Panel (mkTabPanel c k)) ts.
Proof.
  unfold renderTabs. rewrite forEachFrom_buildTab.
  destruct ts as [|T ts]; [done|]. by case_decide.
Qed.

(** X5. The tab strip has one button per Turn and the content area one
    panel per Turn, in the order of the Turn list.  Button and panel [i]
    belong to Turn [i]: the button shows its author, its bot flag and the
    relative time of its date, the panel holds its comment, both carry [i]
    as their index, and they are active exactly when [i] is 0. *)
Theorem renderTabs_per_turn (ts : list CommentItem) (i : nat) (T : CommentItem) :
  ts !! i = Some T →
  length (renderTabs tza clock ts).1 = length ts
  ∧ length (renderTabs tza clock ts).2 = length ts
  ∧ ∃ b q, (renderTabs tza clock ts).1 !! i = Some b
           ∧ (renderTabs tza clock ts).2 !! i = Some (Panel q)
           ∧ authorLabel b = author T ∧ authorIsBot b = isBot T
           ∧ timeLabel b = formatTimeAgo tza (clock i) (Some (date T))
           ∧ panelComment q = element T
           ∧ btnTabIndex b = i ∧ panelTabIndex q = i
           ∧ btnActive b = (i =? 0)%nat ∧ panelActive q = (i =? 0)%nat.
Proof.
  intros HT. rewrite renderTabs_nav, renderTabs_content.
  rewrite decide_False by (by intros ->).
  rewrite !length_imap. split; [done|]. split; [done|].
  exists (mkTabBtn tza clock T i), (mkTabPanel T i).
  rewrite !list_lookup_imap, HT. done.
Qed.

(** X6. The panel of a Turn without attached commits has no commits
    section.  With [n >= 1] attached commits the section lists them in
    their order under the header "1 commit after this comment" when [n] is
    1 and "[n] commits after this comment" otherwise. *)
Theorem renderTabs_commits (ts : list CommentItem) (i : nat) (T : CommentItem) :
  ts !! i = Some T →
  ∃ q, (renderTabs tza clock ts).2 !! i = Some (Panel q)
       ∧ (followingCommits T = [] → panelCommits q = None)
       ∧ (followingCommits T ≠ [] →
          ∃ sec, panelCommits q = Some sec
                 ∧ commitNodes sec = followingCommits T
                 ∧ commitsHeader sec
                   = if decide (length (followingCommits T) = 1%nat)
                     then lit "1 commit after this comment"
                     else numToString (Z.of_nat (length (followingCommits T)))
                          ++ lit " commits after this comment").
Proof.
  intros HT. rewrite renderTabs_content.
  rewrite decide_False by (by intros ->).
  exists (mkTabPanel T i). rewrite list_lookup_imap, HT.
  split; [done|]. unfold mkTabPanel. simpl.
  destruct (followingCommits T) as [|c [|c' l]] eqn:Hf.
  - split; [done|]. by intros ?.
  - split; [done|]. intros _. eexists. split; [reflexivity|]. by split.
  - split; [done|]. intros _. eexists. split; [reflexivity|]. split; [done|].
    simpl commitsHeader. unfold commitsHeaderText. simpl length.
    rewrite decide_False by lia. done.
Qed.

End Tabs.

Lemma renderTabs_per_turn_witness :
  ∃ b, (renderTabs Examples.utc Examples.now
          (turns DateParser.parse Examples.scenarioA)).1 !! 1%nat = Some b
       ∧ authorLabel b = lit "alice" ∧ btnActive b = false.
Proof.
  destruct (renderTabs_per_turn Examples.utc Examples.now
              (turns DateParser.parse Examples.scenarioA) 1 Examples.aliceTurn)
    as (_ & _ & b & q & Hb & _ & Ha & _ & _ & _ & _ & _ & Hact & _).
  - by vm_compute.
  - exists b. by rewrite Hb, Ha, Hact.
Defined.

Lemma renderTabs_commits_witness :
  ∃ q sec, (renderTabs Examples.utc Examples.now
              (turns DateParser.parse Examples.scenarioA)).2 !! 1%nat
           = Some (Panel q)
           ∧ panelCommits q = Some sec
           ∧ commitsHeader sec = lit "2 commits after this comment".
Proof.
  destruct (renderTabs_commits Examples.utc Examples.now
              (turns DateParser.parse Examples.scenarioA) 1 Examples.aliceTurn)
    as (q & Hq & _ & H).
  - by vm_compute.
  - destruct H as (sec & Hs & _ & Hh); [done|].
    exists q, sec. by rewrite Hq, Hs, Hh.
Defined.

(** ** Tabs and clicks *)

Lemma setActiveBtn_index i b : btnTabIndex (setActiveBtn i b) = btnTabIndex b.
Proof. done. Qed.

Lemma setActiveChild_panel i x q :
  setActiveChild i x = Panel q →
  ∃ q0, x = Panel q0 ∧ panelTabIndex q = panelTabIndex q0
        ∧ panelActive q = (panelTabIndex q0 =? i)%nat
        ∧ panelComment q = panelComment q0 ∧ panelCommits q = panelCommits q0.
Proof. destruct x as [q0|t]; simpl; [|done]. intros [= <-]. by exists q0. Qed.

Lemma switchTab_container i p c :
  container p = Some c →
  container (switchTab i p)
  = Some {| toggleLabel := toggleLabel c; tabsDisplay := tabsDisplay c;
            tabNav := setActiveBtn i <$> tabNav c;
            tabContent := setActiveChild i <$> tabContent c |}.
Proof. intros Hc. unfold switchTab. simpl. by rewrite Hc. Qed.

Lemma indexedTabs_switch i c :
  indexedTabs c →
  indexedTabs {| toggleLabel := toggleLabel c; tabsDisplay := tabsDisplay c;
                 tabNav := setActiveBtn i <$> tabNav c;
                 tabContent := setActiveChild i <$> tabContent c |}.
Proof.
  intros (Hn & Hp & Hall). unfold indexedTabs. simpl. rewrite length_fmap.
  split; [|split].
  - intros k b. rewrite list_lookup_fmap.
    destruct (tabNav c !! k) as [b0|] eqn:Hb; [|done]. intros [= <-].
    exact (Hn k b0 Hb).
  - intros k q. rewrite list_lookup_fmap.
    destruct (tabContent c !! k) as [x|] eqn:Hx; [|done]. intros [= Hq].
    apply setActiveChild_panel in Hq as (q0 & -> & -> & _). by apply Hp.
  - intros k Hk. destruct (Hall k Hk) as (q0 & Hq0).
    rewrite list_lookup_fmap, Hq0. simpl. by eexists.
Qed.

Lemma activeTab_switch i c :
  indexedTabs c →
  activeTab i {| toggleLabel := toggleLabel c; tabsDisplay := tabsDisplay c;
                 tabNav := setActiveBtn i <$> tabNav c;
                 tabContent := setActiveChild i <$> tabContent c |}.
Proof.
  intros (Hn & Hp & _). split; simpl.
  - intros k b. rewrite list_lookup_fmap.
    destruct (tabNav c !! k) as [b0|] eqn:Hb; [|done]. intros [= <-]. simpl.
    by rewrite (Hn k b0).
  - intros k q. rewrite list_lookup_fmap.
    destruct (tabContent c !! k) as [x|] eqn:Hx; [|done]. intros [= Hq].
    apply setActiveChild_panel in Hq as (q0 & -> & _ & -> & _).
    by destruct (Hp k q0 Hx) as [-> _].
Qed.

Section Clicked.

Variable parseDate : jsstring -> Date.
Variable tza : Z -> Z.
Variable clock : nat -> Z.

Lemma createSimplifiedView_tabs p :
  ∃ c, container (createSimplifiedView parseDate tza clock p) = Some c
       ∧ indexedTabs c ∧ activeTab 0 c
       ∧ length (tabNav c) = length (turns parseDate (timeline p)).
Proof.
  eexists. split; [reflexivity|]. simpl.
  rewrite renderTabs_nav, renderTabs_content.
  set (ts := turns parseDate (timeline p)).
  unfold indexedTabs, activeTab. simpl.
  split; [|split].
  - split; [|split]; rewrite ?length_imap.
    + intros k b. rewrite list_lookup_imap.
      destruct (ts !! k); [|done]. by intros [= <-].
    + intros k q. case_decide as Hts.
      * by destruct k as [|[|k]].
      * rewrite list_lookup_imap. destruct (ts !! k) as [T|] eqn:HT; [|done].
        intros [= <-]. split; [done|]. by eapply lookup_lt_Some.
    + intros k Hk. rewrite decide_False by (intros Hts; rewrite Hts in Hk; simpl in Hk; lia).
      rewrite list_lookup_imap. apply lookup_lt_is_Some_2 in Hk as [T HT].
      rewrite HT. by eexists.
  - split.
    + intros k b. rewrite list_lookup_imap.
      destruct (ts !! k); [|done]. by intros [= <-].
    + intros k q. case_decide as Hts.
      * by destruct k as [|[|k]].
      * rewrite list_lookup_imap. destruct (ts !! k) as [T|] eqn:HT; [|done].
        by intros [= <-].
  - by rewrite length_imap.
Qed.

Lemma toggleView_tabs p p' c :
  container p = Some c → toggleView p = Some p' →
  ∃ c', container p' = Some c' ∧ tabNav c' = tabNav c
        ∧ tabContent c' = tabContent c.
Proof.
  intros Hc. unfold toggleView. rewrite Hc.
  destruct (isSimplified p); intros [= <-]; by eexists.
Qed.

Lemma indexedTabs_ext c c' :
  tabNav c' = tabNav c → tabContent c' = tabContent c →
  indexedTabs c → indexedTabs c'.
Proof. unfold indexedTabs. by intros -> ->. Qed.


Lemma reached_indexed p :
  reached parseDate tza clock p →
  ∃ c, container p = Some c ∧ indexedTabs c.
Proof.
  induction 1 as [p Hc | p p' Hr (c & Hc & Hi) Ht | p i Hr (c & Hc & Hi)
                 | p Hr (c & Hc & Hi)].
  - destruct (createSimplifiedView_tabs p) as (c & Hc' & Hi & _). by exists c.
  - destruct (toggleView_tabs p p' c Hc Ht) as (c' & Hc' & Hn & Hp).
    exists c'. split; [done|]. by eapply indexedTabs_ext.
  - eexists. split; [by apply switchTab_container|]. by apply indexedTabs_switch.
  - exists c. unfold simplifyPR. by rewrite Hc.
Qed.


(** X7. After [switchTab(i)] on a page reached after a reconstruction, the
    button at position [k] and the panel at position [k] are active exactly
    when [k] is [i].  With [i] beyond the last tab no button and no panel
    is active. *)
Theorem switchTab_selects p i c' :
  reached parseDate tza clock p →
  container (switchTab i p) = Some c' →
  activeTab i c'
  ∧ ((length (tabNav c') <= i)%nat →
     Forall (λ b, btnActive b = false) (tabNav c')
     ∧ Forall (λ x, ∀ q, x = Panel q → panelActive q = false) (tabContent c')).
Proof.
  intros Hr Hc'. destruct (reached_indexed p Hr) as (c & Hc & Hi).
  rewrite (switchTab_container i p c Hc) in Hc'. injection Hc' as <-.
  pose proof (activeTab_switch i c Hi) as Ha.
  pose proof (indexedTabs_switch i c Hi) as Hi'.
  split; [done|]. intros Hlen. destruct Ha as [Hb Hq]. split.
  - apply Forall_lookup. intros k b Hk. rewrite (Hb k b Hk).
    apply lookup_lt_Some in Hk. apply Nat.eqb_neq. lia.
  - apply Forall_lookup. intros k x Hk q ->. rewrite (Hq k q Hk).
    destruct Hi' as (_ & Hp & _). destruct (Hp k q Hk) as [_ Hlt].
    apply Nat.eqb_neq. lia.
Qed.


End Clicked.

Lemma switchTab_selects_witness :
  ∃ c', container (switchTab 1
                     (createSimplifiedView DateParser.parse Examples.utc Examples.now
                        (Examples.freshPage Examples.scenarioA))) = Some c'
        ∧ activeTab 1 c'.
Proof.
  eexists. split; [reflexivity|].
  eapply (switchTab_selects DateParser.parse Examples.utc Examples.now
            (createSimplifiedView DateParser.parse Examples.utc Examples.now
               (Examples.freshPage Examples.scenarioA)) 1).
  - by apply reached_reconstruct.
  - reflexivity.
Defined.


Lemma setActiveBtn_twice i j b :
  setActiveBtn j (setActiveBtn i b) = setActiveBtn j b.
Proof. done. Qed.

Lemma setActiveChild_twice i j x :
  setActiveChild j (setActiveChild i x) = setActiveChild j x.
Proof. by destruct x. Qed.

(** X9. Of two calls of [switchTab] the later one decides: [switchTab(i)]
    followed by [switchTab(j)] leaves the page as [switchTab(j)] alone does;
    in particular selecting the same tab again changes nothing more. *)
Theorem switchTab_last_wins (i j : nat) (p : Page) :
  switchTab j (switchTab i p) = switchTab j p
  ∧ switchTab i (switchTab i p) = switchTab i p.
Proof.
  assert (H : ∀ a b, switchTab b (switchTab a p) = switchTab b p).
  { intros a b. unfold switchTab. simpl. f_equal.
    destruct (container p) as [c|]; simpl; [|done]. do 2 f_equal.
    - rewrite <- list_fmap_compose. apply list_fmap_ext. intros k x _.
      apply setActiveBtn_twice.
    - rewrite <- list_fmap_compose. apply list_fmap_ext. intros k x _.
      apply setActiveChild_twice. }
  split; apply H.
Qed.

(** X10. Selecting a tab and clicking the toggle button do not interfere:
    in either order they give the same page, and [switchTab] leaves the
    module flag, the two [display] styles, the label of the toggle button
    and the timeline as they are. *)
Theorem switchTab_toggle_commute (i : nat) (p : Page) :
  toggleView (switchTab i p) = switchTab i <$> toggleView p
  ∧ isSimplified (switchTab i p) = isSimplified p
  ∧ discussionDisplay (switchTab i p) = discussionDisplay p
  ∧ timeline (switchTab i p) = timeline p
  ∧ (tabsDisplay <$> container (switchTab i p)) = (tabsDisplay <$> container p)
  ∧ (toggleLabel <$> container (switchTab i p)) = (toggleLabel <$> container p).
Proof.
  split; [|repeat split; simpl; by destruct (container p)].
  unfold toggleView, switchTab. simpl.
  destruct (container p) as [c|]; simpl; [|done].
  by destruct (isSimplified p).
Qed.

(** ** What stays true of the page *)

Section Invariant.

Variable parseDate : jsstring -> Date.
Variable tza : Z -> Z.
Variable clock : nat -> Z.

Lemma reached_flags p :
  reached parseDate tza clock p →
  hiddenFlag p = Some (lit "true") ∧ is_Some (originalState p).
Proof.
  induction 1 as [p Hc | p p' Hr [Hh Ho] Ht | p i Hr [Hh Ho] | p Hr [Hh Ho]].
  - by split.
  - unfold toggleView in Ht. destruct (container p); [|done].
    by destruct (isSimplified p); injection Ht as <-.
  - done.
  - unfold simplifyPR. by destruct (container p).
Qed.

(** X11. On every page reached after a reconstruction the container
    exists, so a click on the toggle button never fails, and exactly one of
    the two views is shown: either the flag says simplified, the discussion
    is hidden, the tabs are shown and the button offers the original view,
    or the flag says original, the discussion has an empty [display] style,
    the tabs are hidden and the button offers the simplified view.  The data
    attribute of the discussion stays "true" in both views. *)
Theorem one_view_shown p :
  reached parseDate tza clock p →
  ∃ c, container p = Some c ∧ is_Some (toggleView p)
       ∧ hiddenFlag p = Some (lit "true")
       ∧ ((isSimplified p = true ∧ discussionDisplay p = lit "none"
           ∧ tabsDisplay c = [] ∧ toggleLabel c = lit "Show Original View")
          ∨ (isSimplified p = false ∧ discussionDisplay p = []
             ∧ tabsDisplay c = lit "none"
             ∧ toggleLabel c = lit "Show Simplified View")).
Proof.
  intros Hr. destruct (reached_consistent parseDate tza clock p Hr) as (c & Hc & Hv).
  destruct (reached_flags p Hr) as [Hh _].
  exists c. split; [done|]. split.
  - unfold toggleView. rewrite Hc. by destruct (isSimplified p).
  - split; [done|].
    destruct (isSimplified p); [left|right]; by destruct Hv as (? & ? & ?).
Qed.

End Invariant.

Lemma one_view_shown_witness :
  ∃ c, container (createSimplifiedView DateParser.parse Examples.utc Examples.now
                    (Examples.freshPage Examples.scenarioA)) = Some c
       ∧ hiddenFlag (createSimplifiedView DateParser.parse Examples.utc Examples.now
                       (Examples.freshPage Examples.scenarioA)) = Some (lit "true").
Proof.
  destruct (one_view_shown DateParser.parse Examples.utc Examples.now
              (createSimplifiedView DateParser.parse Examples.utc Examples.now
                 (Examples.freshPage Examples.scenarioA)))
    as (c & Hc & _ & Hh & _).
  - by apply reached_reconstruct.
  - by exists c.
Defined.

(** ** Which entries become Turns *)

Section Survivors.

Variable parseDate : jsstring -> Date.

Lemma turn_comment items T :
  T ∈ turns parseDate items →
  ∃ item, items !! index T = Some item ∧ isCommentEntry item = true
          ∧ Comment (mkComment parseDate item (index T))
            ∈ orderedItems parseDate items
          ∧ T = withCommits (mkComment parseDate item (index T)) (followingCommits T).
Proof.
  intros HT%elem_of_turns.
  destruct (grouped_origin _ _ (orderedItems_grouped parseDate items) T HT)
    as (c0 & Hc0 & HT0).
  pose proof (orderedItems_fromPage parseDate items) as HF.
  rewrite Forall_forall in HF. destruct (HF _ Hc0) as (item & Hi & He & Hc).
  assert (Hidx : index T = index c0) by (by rewrite HT0).
  exists item. rewrite Hidx. split; [done|]. split; [done|].
  rewrite <- Hc. split; [done|]. exact HT0.
Qed.

Lemma turns_index_inj items T1 T2 :
  T1 ∈ turns parseDate items → T2 ∈ turns parseDate items →
  index T1 = index T2 → T1 = T2.
Proof.
  intros H1%elem_of_turns H2%elem_of_turns Heq.
  pose proof (grouped_sorted _ _ (orderedItems_grouped parseDate items)) as Hs.
  apply list_elem_of_lookup in H1 as (i & Hi), H2 as (j & Hj).
  assert (Hi' : (index <$> (secondPass (orderedItems parseDate items)).1) !! i
                = Some (index T1)) by (by rewrite list_lookup_fmap, Hi).
  assert (Hj' : (index <$> (secondPass (orderedItems parseDate items)).1) !! j
                = Some (index T2)) by (by rewrite list_lookup_fmap, Hj).
  destruct (Nat.lt_trichotomy i j) as [Hlt|[->|Hlt]].
  - pose proof (StronglySorted_lookup_2 lt _ _ _ _ _ Hs Hlt Hi' Hj'). lia.
  - congruence.
  - pose proof (StronglySorted_lookup_2 lt _ _ _ _ _ Hs Hlt Hj' Hi'). lia.
Qed.

(** X12. A comment-entry becomes a Turn exactly when no comment-entry
    before it on the page has the same key: of several entries with one key
    the first is kept. *)
Theorem first_of_key_survives items i item :
  items !! i = Some item → isCommentEntry item = true →
  (∃ T, T ∈ turns parseDate items ∧ index T = i)
  ↔ contentKey item ∉ contentKey <$> commentEntries (take i items).
Proof.
  intros Hi He. rewrite <- (orderedItems_comment_kept_iff parseDate items i item Hi He).
  split.
  - intros (T & HT & <-).
    destruct (turn_comment items T HT) as (item' & Hi' & _ & Hin & _).
    rewrite Hi in Hi'. by injection Hi' as <-.
  - intros Hin. by apply (surviving_comment_is_turn parseDate items _ Hin).
Qed.

Lemma commentEntries_take items i j item :
  items !! i = Some item → isCommentEntry item = true → (i < j)%nat →
  item ∈ commentEntries (take j items).
Proof.
  intros Hi He Hlt. unfold commentEntries.
  apply list_elem_of_In, filter_In. split; [|done].
  apply list_elem_of_In, list_elem_of_lookup. exists i.
  by rewrite lookup_take_lt.
Qed.

(** X13. Two different Turns never have the same key. *)
Theorem turn_keys_distinct items T1 T2 a b :
  T1 ∈ turns parseDate items → T2 ∈ turns parseDate items →
  items !! index T1 = Some a → items !! index T2 = Some b →
  T1 ≠ T2 → contentKey a ≠ contentKey b.
Proof.
  intros H1 H2 Ha Hb Hne Hk. apply Hne.
  destruct (turn_comment items T1 H1) as (a' & Ha' & Hea & Hina & _).
  destruct (turn_comment items T2 H2) as (b' & Hb' & Heb & Hinb & _).
  rewrite Ha in Ha'. injection Ha' as <-. rewrite Hb in Hb'. injection Hb' as <-.
  apply orderedItems_comment_kept_iff in Hina; [|done..].
  apply orderedItems_comment_kept_iff in Hinb; [|done..].
  destruct (Nat.lt_trichotomy (index T1) (index T2)) as [Hlt|[Heq|Hlt]].
  - exfalso. apply Hinb. rewrite <- Hk. apply list_elem_of_fmap_2.
    by apply (commentEntries_take items (index T1)).
  - by apply (turns_index_inj items).
  - exfalso. apply Hina. rewrite Hk. apply list_elem_of_fmap_2.
    by apply (commentEntries_take items (index T2)).
Qed.

(** X14. The key holds only the first 100 code units of the trimmed body:
    of two comments with the same author and timestamp text whose bodies
    agree up to there, the second is dropped, however the bodies go on. *)
Theorem same_prefix_dropped a b :
  isCommentEntry a = true → isCommentEntry b = true →
  interp (authorOf a) = interp (authorOf b) → timeTextOf a = timeTextOf b →
  substring0 100 (trim (default [] (bodyElement a)))
  = substring0 100 (trim (default [] (bodyElement b))) →
  turns parseDate [a; b] = [mkComment parseDate a 0].
Proof.
  intros Ha Hb Hau Ht Hbody.
  assert (Hk : contentKey a = contentKey b).
  { unfold contentKey. by rewrite Hau, Ht, Hbody. }
  unfold turns. rewrite orderedItems_pair by done. by rewrite decide_True.
Qed.

Lemma trimStart_blank (s : jsstring) :
  Forall (λ c, isWhiteSpace c = true) s → trimStart s = [].
Proof. induction 1 as [|c s Hc _ IH]; simpl; [done|]. by rewrite Hc. Qed.

Lemma trim_blank (s : jsstring) :
  Forall (λ c, isWhiteSpace c = true) s → trim s = [].
Proof. intros H. unfold trim. by rewrite (trimStart_blank s H). Qed.

(** X15. An entry that is no commit and whose body is missing, empty or
    made of white space only leaves no trace: no ordered item and no Turn
    has its index. *)
Theorem blank_entry_dropped items i item :
  items !! i = Some item → isCommit item = false →
  (∀ b, bodyElement item = Some b → Forall (λ c, isWhiteSpace c = true) b) →
  (∀ o, o ∈ orderedItems parseDate items → itemIndex o ≠ i)
  ∧ (∀ T, T ∈ turns parseDate items → index T ≠ i).
Proof.
  intros Hi Hc Hb.
  assert (He : isCommentEntry item = false).
  { unfold isCommentEntry, hasTextContent. rewrite Hc. simpl.
    destruct (bodyElement item) as [b|]; [|done]. by rewrite trim_blank by by apply Hb. }
  split.
  - intros o Ho Heq. pose proof (orderedItems_fromPage parseDate items) as HF.
    rewrite Forall_forall in HF. specialize (HF o Ho).
    destruct o as [el j|c]; simpl in *; subst;
      destruct HF as (item' & Hi' & H' & _); rewrite Hi in Hi';
      injection Hi' as <-; congruence.
  - intros T HT Heq. subst i.
    destruct (turn_comment items T HT) as (item' & Hi' & He' & _).
    rewrite Hi in Hi'. injection Hi' as <-. congruence.
Qed.

(** X16. The author shown for a Turn is never empty: it is "agenthelper"
    for a signed comment, else the trimmed author text of the page, else
    "Unknown" when the author element is missing or its text is blank. *)
Theorem author_never_empty items T :
  T ∈ turns parseDate items →
  author T ≠ []
  ∧ ∃ item, items !! index T = Some item
            ∧ author T = displayAuthor item
            ∧ (isFromAgenthelper item = false →
               authorOf item = None ∨ authorOf item = Some [] →
               author T = lit "Unknown").
Proof.
  intros HT. destruct (turn_comment items T HT) as (item & Hi & _ & _ & HTeq).
  assert (Ha : author T = displayAuthor item) by (by rewrite HTeq).
  split.
  - rewrite Ha. unfold displayAuthor.
    destruct (isFromAgenthelper item); [done|].
    by destruct (authorOf item) as [[|c a]|].
  - exists item. split; [done|]. split; [done|].
    intros Hs Hn. rewrite Ha. unfold displayAuthor. rewrite Hs.
    by destruct Hn as [-> | ->].
Qed.

End Survivors.

Lemma first_of_key_survives_witness :
  ∃ T, T ∈ turns DateParser.parse Examples.scenarioA ∧ index T = 1%nat.
Proof.
  apply (first_of_key_survives DateParser.parse Examples.scenarioA 1 Examples.alice);
    [reflexivity|reflexivity|].
  vm_compute. intros H. by apply not_elem_of_nil in H.
Defined.

Lemma turn_keys_distinct_witness :
  contentKey Examples.alice ≠ contentKey Examples.agent.
Proof.
  apply (turn_keys_distinct DateParser.parse Examples.scenarioA
           Examples.aliceTurn (mkComment DateParser.parse Examples.agent 5)).
  - apply (list_elem_of_lookup_2 _ 1%nat). by vm_compute.
  - apply (list_elem_of_lookup_2 _ 0%nat). by vm_compute.
  - reflexivity.
  - reflexivity.
  - by vm_compute.
Defined.

Lemma same_prefix_dropped_witness :
  bodyElement Cases.longA ≠ bodyElement Cases.longB
  ∧ turns DateParser.parse [Cases.longA; Cases.longB]
    = [mkComment DateParser.parse Cases.longA 0].
Proof.
  split; [by vm_compute|].
  apply (same_prefix_dropped DateParser.parse Cases.longA Cases.longB);
    by vm_compute.
Defined.

Lemma blank_entry_dropped_witness :
  Forall (λ T, index T ≠ 1%nat)
    (turns DateParser.parse [Examples.alice; Cases.blank]).
Proof.
  destruct (blank_entry_dropped DateParser.parse [Examples.alice; Cases.blank] 1
              Cases.blank) as [_ H]; [reflexivity|reflexivity| |].
  - intros b [= <-]. repeat constructor.
  - by apply Forall_forall.
Defined.

Lemma author_never_empty_witness :
  ∃ T, T ∈ turns DateParser.parse [Cases.anonymous] ∧ author T = lit "Unknown".
Proof.
  exists (mkComment DateParser.parse Cases.anonymous 0).
  assert (HT : mkComment DateParser.parse Cases.anonymous 0
               ∈ turns DateParser.parse [Cases.anonymous])
    by (apply (list_elem_of_lookup_2 _ 0%nat); by vm_compute).
  split; [exact HT|].
  destruct (author_never_empty DateParser.parse [Cases.anonymous] _ HT)
    as (_ & item & Hi & _ & H).
  injection Hi as <-. apply H; [reflexivity|by left].
Defined.

(** ** The bot flag *)

Lemma includes_bot (a : jsstring) :
  includes a (lit "[bot]") = true → includes a (lit "bot") = true.
Proof.
  rewrite !includes_spec. intros (pre & post & ->).
  exists (pre ++ lit "["), (lit "]" ++ post). by rewrite <- !app_assoc.
Qed.

(** X17. A comment is flagged as written by a bot exactly when its trimmed
    author text contains "bot" anywhere; the test for "[bot]" adds nothing.
    So does every Turn made from it. *)
Theorem isBot_substring parseDate item i :
  (isBotComment item = true
   ↔ ∃ a pre post, authorOf item = Some a ∧ a = pre ++ lit "bot" ++ post)
  ∧ (isBotComment item = true → isBot (mkComment parseDate item i) = true).
Proof.
  split.
  - unfold isBotComment. destruct (authorOf item) as [a|]; split.
    + intros [H%includes_bot|H]%orb_prop;
        apply includes_spec in H as (pre & post & ->);
        exists (pre ++ lit "bot" ++ post), pre, post; by split.
    + intros (a' & pre & post & [= <-] & ->). apply orb_true_iff. right.
      apply includes_spec. by exists pre, post.
    + done.
    + by intros (a' & pre & post & ? & _).
  - intros H. simpl. by rewrite H.
Qed.

Example abbott_is_bot :
  isBot (mkComment DateParser.parse Cases.abbott 0) = true
  ∧ author (mkComment DateParser.parse Cases.abbott 0) = lit "abbott".
Proof. by vm_compute. Qed.

(** ** Every commit has one Turn *)

Lemma sorted_lt_NoDup (l : list nat) : StronglySorted lt l → NoDup l.
Proof.
  induction 1 as [|x l Hs IH Hx]; constructor; [|done].
  intros Hin. rewrite Forall_forall in Hx. specialize (Hx x Hin). lia.
Qed.

(** X18. A commit entry that some Turn precedes on the page is attached to
    exactly one Turn: the nearest Turn before it.  It is in the list of no
    other Turn, and once in the list of that one. *)
Theorem commit_attached_once parseDate items i item T0 :
  items !! i = Some item → isCommit item = true →
  T0 ∈ turns parseDate items → (index T0 < i)%nat →
  ∃ T, T ∈ turns parseDate items
       ∧ cloneNode item i ∈ followingCommits T
       ∧ (index T < i)%nat
       ∧ (∀ T', T' ∈ turns parseDate items → ¬ (index T < index T' < i)%nat)
       ∧ (∀ T', T' ∈ turns parseDate items →
                cloneNode item i ∈ followingCommits T' → T' = T)
       ∧ NoDup (followingCommits T).
Proof.
  intros Hi Hc HT0 Hlt.
  pose proof (orderedItems_grouped parseDate items) as G.
  destruct (commit_attached parseDate items i item Hi Hc) as (T & HT & Hin);
    [by exists T0|].
  assert (Hbetween : ∀ T1, T1 ∈ turns parseDate items →
            cloneNode item i ∈ followingCommits T1 →
            (index T1 < i)%nat
            ∧ ∀ T', T' ∈ turns parseDate items → ¬ (index T1 < index T' < i)%nat).
  { intros T1 HT1 Hin1. assert (HT1' := HT1). apply elem_of_turns in HT1'.
    destruct (grouped_between _ _ G T1 _ HT1' Hin1) as (_ & Hafter & Hnone).
    split; [done|]. intros T' HT'%elem_of_turns. by apply Hnone. }
  destruct (Hbetween T HT Hin) as [HTlt HTnone].
  exists T. split; [done|]. split; [done|]. split; [done|]. split; [done|]. split.
  - intros T' HT' Hin'. destruct (Hbetween T' HT' Hin') as [HTlt' HTnone'].
    apply (turns_index_inj parseDate items); [done..|].
    specialize (HTnone T' HT'). specialize (HTnone' T HT). lia.
  - apply elem_of_turns in HT.
    pose proof (grouped_order _ _ G T HT) as Hs.
    apply (NoDup_fmap_1 nodeId). by apply sorted_lt_NoDup.
Qed.

Lemma commit_attached_once_witness :
  ∃ T, T ∈ turns DateParser.parse Examples.scenarioA
       ∧ cloneNode Examples.commit 4 ∈ followingCommits T
       ∧ (index T < 4)%nat.
Proof.
  destruct (commit_attached_once DateParser.parse Examples.scenarioA 4
              Examples.commit Examples.aliceTurn) as (T & H1 & H2 & H3 & _).
  - reflexivity.
  - reflexivity.
  - apply (list_elem_of_lookup_2 _ 1%nat). by vm_compute.
  - simpl. lia.
  - by exists T.
Defined.

(** ** Entries without a timestamp *)

(** X19. When every Turn has a valid date, a Turn whose entry has no
    timestamp element comes after every Turn with a time value later than
    the epoch, and its relative time is rendered as the empty string. *)
Theorem no_timestamp_goes_last parseDate tza now items T0 item0 T t :
  Forall (λ T, is_Some (date T)) (turns parseDate items) →
  T0 ∈ turns parseDate items → items !! index T0 = Some item0 →
  timeElement item0 = None →
  T ∈ turns parseDate items → date T = Some t → 0 < t →
  (∃ i j, (i < j)%nat ∧ turns parseDate items !! i = Some T
          ∧ turns parseDate items !! j = Some T0)
  ∧ formatTimeAgo tza now (Some (date T0)) = [].
Proof.
  intros Hv HT0 Hi0 Hte HT Hd Ht.
  assert (Hd0 : date T0 = Some 0).
  { destruct (turn_comment parseDate items T0 HT0) as (item & Hi & _ & _ & Heq).
    rewrite Hi0 in Hi. injection Hi as <-. rewrite Heq. simpl.
    unfold dateOf. by rewrite Hte. }
  split; [|by rewrite Hd0].
  assert (Hs : StronglySorted goesBefore (turns parseDate items)).
  { apply sortComments_sorted.
    - rewrite Forall_forall in Hv |- *. intros T' HT'. by apply Hv, elem_of_turns.
    - apply (grouped_sorted _ _ (orderedItems_grouped parseDate items)). }
  apply list_elem_of_lookup in HT as (i & Hi), HT0 as (j & Hj).
  exists i, j. split; [|done].
  destruct (Nat.lt_trichotomy i j) as [Hlt|[->|Hlt]]; [done| |].
  - rewrite Hi in Hj. injection Hj as ->. rewrite Hd in Hd0. injection Hd0 as ->. lia.
  - pose proof (StronglySorted_lookup_2 goesBefore _ _ _ _ _ Hs Hlt Hj Hi) as H.
    unfold goesBefore in H. rewrite Hd0, Hd in H. lia.
Qed.

Lemma no_timestamp_goes_last_witness :
  ∃ i j, (i < j)%nat
         ∧ turns DateParser.parse [Cases.noTimestamp; Examples.alice] !! i
           = Some (mkComment DateParser.parse Examples.alice 1)
         ∧ turns DateParser.parse [Cases.noTimestamp; Examples.alice] !! j
           = Some (mkComment DateParser.parse Cases.noTimestamp 0).
Proof.
  destruct (no_timestamp_goes_last DateParser.parse Examples.utc 0
              [Cases.noTimestamp; Examples.alice]
              (mkComment DateParser.parse Cases.noTimestamp 0) Cases.noTimestamp
              (mkComment DateParser.parse Examples.alice 1) 1705314600000)
    as [H _]; try reflexivity.
  - vm_compute. repeat constructor; by eexists.
  - apply (list_elem_of_lookup_2 _ 1%nat). by vm_compute.
  - apply (list_elem_of_lookup_2 _ 0%nat). by vm_compute.
  - exact H.
Defined.

(** ** More of [formatTimeAgo] *)

(** X20. In the three relative forms the number shown is never 0: it is
    between 1 and 59 before "m ago", between 1 and 23 before "h ago" and
    between 1 and 6 before "d ago". *)
Theorem formatTimeAgo_counts tza now t :
  t ≠ 0 →
  (60000 <= now - t < 3600000 →
   ∃ n, 1 <= n <= 59
        ∧ formatTimeAgo tza now (Some (Some t)) = numToString n ++ lit "m ago")
  ∧ (3600000 <= now - t < 86400000 →
     ∃ n, 1 <= n <= 23
          ∧ formatTimeAgo tza now (Some (Some t)) = numToString n ++ lit "h ago")
  ∧ (86400000 <= now - t < 604800000 →
     ∃ n, 1 <= n <= 6
          ∧ formatTimeAgo tza now (Some (Some t)) = numToString n ++ lit "d ago").
Proof.
  intros Ht. rewrite formatTimeAgo_steps by done.
  rewrite (floor_ltb _ 60000 1), (floor_ltb _ 60000 60),
    (floor_ltb _ 3600000 24), (floor_ltb _ 86400000 7) by lia.
  split; [|split]; intros H.
  - exists ((now - t) / 60000). split; [Z.div_mod_to_equations; lia|].
    destruct (Z.ltb_spec (now - t) (1 * 60000)); [lia|].
    destruct (Z.ltb_spec (now - t) (60 * 60000)); [done|lia].
  - exists ((now - t) / 3600000). split; [Z.div_mod_to_equations; lia|].
    destruct (Z.ltb_spec (now - t) (1 * 60000)); [lia|].
    destruct (Z.ltb_spec (now - t) (60 * 60000)); [lia|].
    destruct (Z.ltb_spec (now - t) (24 * 3600000)); [done|lia].
  - exists ((now - t) / 86400000). split; [Z.div_mod_to_equations; lia|].
    destruct (Z.ltb_spec (now - t) (1 * 60000)); [lia|].
    destruct (Z.ltb_spec (now - t) (60 * 60000)); [lia|].
    destruct (Z.ltb_spec (now - t) (24 * 3600000)); [lia|].
    destruct (Z.ltb_spec (now - t) (7 * 86400000)); [done|lia].
Qed.

Lemma formatTimeAgo_counts_witness :
  ∃ n, 1 <= n <= 59
       ∧ formatTimeAgo Examples.utc 1705314660000 (Some (Some 1705314600000))
         = numToString n ++ lit "m ago".
Proof.
  destruct (formatTimeAgo_counts Examples.utc 1705314660000 1705314600000)
    as [H _]; [lia|].
  apply H. lia.
Defined.

(** X21. A timestamp later than the clock, by however much, is rendered as
    "just now". *)
Theorem formatTimeAgo_future tza now t :
  t ≠ 0 → now < t →
  formatTimeAgo tza now (Some (Some t)) = lit "just now".
Proof.
  intros Ht Hlt. rewrite formatTimeAgo_steps by done.
  rewrite (floor_ltb _ 60000 1) by lia.
  destruct (Z.ltb_spec (now - t) (1 * 60000)); [done|lia].
Qed.

Lemma formatTimeAgo_future_witness :
  formatTimeAgo Examples.utc 1705314600000 (Some (Some 1905314600000))
  = lit "just now".
Proof. apply formatTimeAgo_future; lia. Defined.

(** ** The placeholder *)

Lemma distinct_nil_inv {A} `{EqDecision A} (l : list A) :
  distinct l = 0%nat → l = [].
Proof.
  unfold distinct. destruct l as [|x l]; [done|]. intros H.
  apply length_zero_iff_nil in H.
  assert (Hx : x ∈ remove_dups (x :: l)) by (apply elem_of_remove_dups; by left).
  rewrite H in Hx. by apply not_elem_of_nil in Hx.
Qed.

(** X22. The panel "No comments yet" is shown exactly when the page has no
    comment-entry, that is when the Turn list is empty; with at least one
    comment-entry every child of the content area is the panel of a
    Turn. *)
Theorem placeholder_iff parseDate tza clock items :
  (turns parseDate items = [] ↔ commentEntries items = [])
  ∧ (NoComments (lit "No comments yet")
       ∈ (renderTabs tza clock (turns parseDate items)).2
     ↔ commentEntries items = [])
  ∧ (commentEntries items ≠ [] →
     Forall (λ x, ∃ q, x = Panel q)
       (renderTabs tza clock (turns parseDate items)).2).
Proof.
  assert (Hiff : turns parseDate items = [] ↔ commentEntries items = []).
  { split.
    - intros H. apply (f_equal length) in H. rewrite turns_length in H. simpl in H.
      apply distinct_nil_inv in H. by apply fmap_nil_inv in H.
    - apply no_comment_entries_no_turns. }
  assert (Hpanels : turns parseDate items ≠ [] →
            Forall (λ x, ∃ q, x = Panel q)
              (renderTabs tza clock (turns parseDate items)).2).
  { intros Hne. rewrite renderTabs_content, decide_False by done.
    apply Forall_lookup. intros k x. rewrite list_lookup_imap.
    destruct (turns parseDate items !! k); [|done]. intros [= <-]. by eexists. }
  split; [done|]. split.
  - rewrite <- Hiff. split.
    + intros Hin. destruct (decide (turns parseDate items = [])) as [|Hne]; [done|].
      specialize (Hpanels Hne). rewrite Forall_forall in Hpanels.
      by destruct (Hpanels _ Hin) as (q & ?).
    + intros ->. by left.
  - intros Hne. apply Hpanels. by rewrite Hiff.
Qed.

Lemma isBot_substring_witness :
  isBot (mkComment DateParser.parse Cases.abbott 0) = true.
Proof.
  destruct (isBot_substring DateParser.parse Cases.abbott 0) as [_ H].
  apply H. reflexivity.
Defined.

Lemma placeholder_iff_witness :
  Forall (λ x, ∃ q, x = Panel q)
    (renderTabs Examples.utc Examples.now
       (turns DateParser.parse Examples.scenarioA)).2.
Proof.
  destruct (placeholder_iff DateParser.parse Examples.utc Examples.now
              Examples.scenarioA) as (_ & _ & H).
  apply H. by vm_compute.
Defined.

(** ** White space around the body *)

Lemma trimStart_pad (l s : jsstring) :
  Forall (λ c, isWhiteSpace c = true) l → trimStart (l ++ s) = trimStart s.
Proof. induction 1 as [|c l Hc _ IH]; simpl; [done|]. by rewrite Hc. Qed.

Lemma trimStart_app (s r : jsstring) :
  trimStart (s ++ r)
  = match trimStart s with [] => trimStart r | _ => trimStart s ++ r end.
Proof.
  induction s as [|c s IH]; simpl; [done|].
  destruct (isWhiteSpace c); [done|]. done.
Qed.

Lemma trim_pad (l s r : jsstring) :
  Forall (λ c, isWhiteSpace c = true) l → Forall (λ c, isWhiteSpace c = true) r →
  trim (l ++ s ++ r) = trim s.
Proof.
  intros Hl Hr. unfold trim. rewrite trimStart_pad by done.
  rewrite trimStart_app. destruct (trimStart s) as [|c s'] eqn:Hs.
  - by rewrite (trimStart_blank r Hr).
  - rewrite rev_app_distr, trimStart_pad; [done|].
    rewrite Forall_forall in Hr |- *. intros x Hx. apply Hr.
    by apply list_elem_of_In, in_rev, list_elem_of_In.
Qed.

(** X23. White space around the body text does not count: a second render
    of a comment whose body differs from the first only by white space
    before and after it has the same key and is dropped. *)
Theorem padded_body_dropped parseDate a b (s l r : jsstring) :
  isCommentEntry a = true → isCommentEntry b = true →
  interp (authorOf a) = interp (authorOf b) → timeTextOf a = timeTextOf b →
  bodyElement a = Some s → bodyElement b = Some (l ++ s ++ r) →
  Forall (λ c, isWhiteSpace c = true) l → Forall (λ c, isWhiteSpace c = true) r →
  contentKey a = contentKey b
  ∧ turns parseDate [a; b] = [mkComment parseDate a 0].
Proof.
  intros Ha Hb Hau Ht Hsa Hsb Hl Hr.
  assert (Hk : contentKey a = contentKey b).
  { unfold contentKey. rewrite Hau, Ht, Hsa, Hsb. simpl. by rewrite trim_pad. }
  split; [done|].
  unfold turns. rewrite orderedItems_pair by done. by rewrite decide_True.
Qed.

Lemma padded_body_dropped_witness :
  turns DateParser.parse
    [Examples.alice;
     Examples.comment (Some (lit "alice")) (Some Examples.t0)
       ([32%N; 10%N] ++ lit "lgtm" ++ [10%N]) None]
  = [mkComment DateParser.parse Examples.alice 0].
Proof.
  eapply (padded_body_dropped DateParser.parse Examples.alice _
            (lit "lgtm") [32%N; 10%N] [10%N]);
    try reflexivity; by repeat constructor.
Defined.
